(** * graphql-react: the cache, its events and the bulk operations

    A shallow embedding of the cache core of the library:
    [cacheEntryDelete], [cacheEntryStale], [cacheDelete], [cacheStale],
    [cachePrune] and the older [GraphQL#reset], together with the
    JavaScript notions they rest on: dynamically typed arguments, an object
    used as an ordered dictionary, [for ... in], [EventTarget] dispatch.

    What the model takes from JavaScript:
    - a store is a plain object: the list of its own enumerable properties
      in creation order, with [Object.prototype] behind it; enumeration
      puts array-index keys first, and [key in store] also finds the names
      the store inherits;
    - [for (key in store)] lists the keys once when the loop starts and
      skips a listed key that is no longer a property when its turn comes;
    - a listener is a function of the event and the store it finds, which
      returns the store it leaves and whether it called [preventDefault];
    - a cache key matcher is a pure function of the key.

    [cacheEntrySet], [cacheEntryPrune], [Loading] and [LoadingCacheValue]
    have no source here; they are modelled from the specification and
    marked so. *)

From Stdlib Require Import List String Ascii Bool Arith NArith ZArith Lia Permutation.
From Stdlib Require Import DecimalString.
Import ListNotations.
Local Open Scope string_scope.
Local Open Scope list_scope.

(** ** JavaScript values and objects used as dictionaries *)

Module JS.

(** The values an argument can take.  A function value is a cache key
    matcher: a pure function from a key to the truthiness of its result.
    [VCache] is (a reference to) the [Cache] instance of the world,
    [VObject] any other object. *)
Inductive Value : Type :=
| VUndefined
| VNull
| VBool (b : bool)
| VNumber (n : Z)
| VString (s : string)
| VFunction (f : string -> bool)
| VObject (ref : nat)
| VCache.

(** [typeof v] *)
Definition typeof (v : Value) : string :=
  match v with
  | VUndefined => "undefined"
  | VNull => "object"
  | VBool _ => "boolean"
  | VNumber _ => "number"
  | VString _ => "string"
  | VFunction _ => "function"
  | VObject _ => "object"
  | VCache => "object"
  end.

(** [v instanceof Cache] *)
Definition instanceofCache (v : Value) : bool :=
  match v with VCache => true | _ => false end.

(** [v === undefined] *)
Definition isUndefined (v : Value) : bool :=
  match v with VUndefined => true | _ => false end.

(** ToBoolean, as used by [if (v)] and [!v]. *)
Definition truthy (v : Value) : bool :=
  match v with
  | VUndefined | VNull => false
  | VBool b => b
  | VNumber n => negb (n =? 0)%Z
  | VString s => negb (s =? "")
  | VFunction _ | VObject _ | VCache => true
  end.

(** [hash === v] for a string [hash]. *)
Definition strictEqString (hash : string) (v : Value) : bool :=
  match v with VString s => hash =? s | _ => false end.

(** [f(key)] coerced to a boolean; only function values are called. *)
Definition call (f : Value) (key : string) : bool :=
  match f with VFunction g => g key | _ => false end.

(** An object used as a dictionary: its own enumerable string-keyed
    properties in creation order.  Its prototype is [Object.prototype],
    as for an object literal or the result of [JSON.parse]. *)
Definition Obj : Type := list (string * Value).

(** [Object.hasOwn(o, key)]: [key] is an own property of [o]. *)
Fixpoint has (key : string) (o : Obj) : bool :=
  match o with
  | [] => false
  | (k, _) :: rest => (k =? key) || has key rest
  end.

(** [o[key]] for an own property; [None] when [o] has no own property
    [key]. *)
Fixpoint get (key : string) (o : Obj) : option Value :=
  match o with
  | [] => None
  | (k, v) :: rest => if k =? key then Some v else get key rest
  end.

(** [o[key] = value]: an existing property keeps its place, a new one is
    created last. *)
Fixpoint set (key : string) (value : Value) (o : Obj) : Obj :=
  match o with
  | [] => [(key, value)]
  | (k, v) :: rest =>
      if k =? key then (k, value) :: rest else (k, v) :: set key value rest
  end.

(** [delete o[key]]: removes an own property, and nothing else. *)
Fixpoint delete (key : string) (o : Obj) : Obj :=
  match o with
  | [] => []
  | (k, v) :: rest =>
      if k =? key then delete key rest else (k, v) :: delete key rest
  end.

(** The names of the properties of [Object.prototype], which every plain
    object inherits.  None of them is enumerable, so [for ... in] and
    [Object.keys] never list them. *)
Definition prototypeKeys : list string :=
  ["constructor"; "__defineGetter__"; "__defineSetter__"; "hasOwnProperty";
   "__lookupGetter__"; "__lookupSetter__"; "isPrototypeOf";
   "propertyIsEnumerable"; "toString"; "valueOf"; "__proto__";
   "toLocaleString"].

(** [key] names a property of [Object.prototype]. *)
Definition inherited (key : string) : bool :=
  existsb (String.eqb key) prototypeKeys.

(** [key in o]: [key] is an own property of [o] or the name of a property
    [o] inherits. *)
Definition hasProperty (key : string) (o : Obj) : bool :=
  has key o || inherited key.

(** *** Property enumeration order

    [OrdinaryOwnPropertyKeys]: the keys that are array indices (canonical
    decimal numerals below 2^32 - 1) come first, in ascending numeric
    order, then the other string keys in creation order. *)

Definition digit (c : ascii) : option N :=
  let n := N_of_ascii c in
  if ((48 <=? n) && (n <=? 57))%N then Some (n - 48)%N else None.

Fixpoint digits (s : string) (acc : N) : option N :=
  match s with
  | EmptyString => Some acc
  | String c rest =>
      match digit c with
      | Some d => digits rest (10 * acc + d)%N
      | None => None
      end
  end.

Definition arrayIndex (s : string) : option N :=
  match s with
  | EmptyString => None
  | String "0" EmptyString => Some 0%N
  | String "0" _ => None
  | _ =>
      match digits s 0%N with
      | Some n => if (n <? 4294967295)%N then Some n else None
      | None => None
      end
  end.

Definition isArrayIndex (s : string) : bool :=
  match arrayIndex s with Some _ => true | None => false end.

Fixpoint insertIndex (n : N) (k : string) (l : list (N * string))
  : list (N * string) :=
  match l with
  | [] => [(n, k)]
  | (m, j) :: rest =>
      if (n <=? m)%N then (n, k) :: l else (m, j) :: insertIndex n k rest
  end.

Fixpoint indexKeys (ks : list string) : list (N * string) :=
  match ks with
  | [] => []
  | k :: rest =>
      match arrayIndex k with
      | Some n => insertIndex n k (indexKeys rest)
      | None => indexKeys rest
      end
  end.

Definition ownKeys (o : Obj) : list string :=
  map snd (indexKeys (map fst o))
    ++ filter (fun k => negb (isArrayIndex k)) (map fst o).

(** [Object.keys(o)] *)
Definition keys (o : Obj) : list string := ownKeys o.

End JS.
Import JS.

(** ** The cache: store, listeners, dispatched events *)

Module CacheCore.

(** [new CustomEvent(type, { cancelable, detail })] *)
Record Event : Type := CustomEvent {
  type : string;
  cancelable : bool;
  detail : option Value
}.

(** A listener registered on the cache.  Given the event and the store it
    finds, it returns the store it leaves and whether it called
    [event.preventDefault()]. *)
Definition Listener : Type := Event -> Obj -> Obj * bool.

(** One dispatch, as recorded by the model: the event and the store at the
    moment [dispatchEvent] was entered. *)
Record Dispatch : Type := {
  event : Event;
  seen : Obj
}.

(** The state the operations run in: [cache.store], the listeners added
    to the cache in registration order, the dispatches so far (oldest
    first), and whether [process.env.NODE_ENV] is not ['production'].
    The store is a plain object: the tests construct the cache from object
    literals, and a serialized store comes back from [JSON.parse]. *)
Record World : Type := {
  store : Obj;
  listeners : list (string * Listener);
  log : list Dispatch;
  devMode : bool
}.

Inductive Exn : Type :=
| TypeError (message : string)
| Error (message : string).

Inductive Result (A : Type) : Type :=
| Returned (a : A) (w : World)
| Threw (e : Exn) (w : World).
Arguments Returned {A} a w.
Arguments Threw {A} e w.

Definition M (A : Type) : Type := World -> Result A.

Definition ret {A} (a : A) : M A := fun w => Returned a w.

Definition bind {A B} (c : M A) (k : A -> M B) : M B :=
  fun w =>
    match c w with
    | Returned a w' => k a w'
    | Threw e w' => Threw e w'
    end.

Definition throw {A} (e : Exn) : M A := fun w => Threw e w.

Declare Scope js_scope.
Delimit Scope js_scope with js.
Notation "x <- c ;; k" := (bind c (fun x => k))
  (at level 61, c at next level, right associativity) : js_scope.
Notation "c ;; k" := (bind c (fun _ => k))
  (at level 61, right associativity) : js_scope.
Local Open Scope js_scope.

Definition when (b : bool) (c : M unit) : M unit :=
  if b then c else ret tt.

(** The world a run ends in, whether it returned or threw. *)
Definition final {A} (r : Result A) : World :=
  match r with Returned _ w => w | Threw _ w => w end.

Definition getStore : M Obj := fun w => Returned (store w) w.

Definition putStore (s : Obj) : M unit :=
  fun w =>
    Returned tt {| store := s; listeners := listeners w;
                   log := log w; devMode := devMode w |}.

Definition isDev : M bool := fun w => Returned (devMode w) w.

(** The string of a value already checked to be a string. *)
Definition asString (v : Value) : string :=
  match v with VString s => s | _ => "" end.

(** Modelled from the spec: [createArgErrorMessageProd] is not among the
    sources; its test expects ['Argument 1 type invalid.'] for [1]. *)
Definition createArgErrorMessageProd (argIndex : nat) : string :=
  "Argument " ++ NilEmpty.string_of_uint (Nat.to_uint argIndex)
    ++ " type invalid.".

(** [throw new TypeError(dev ? message : createArgErrorMessageProd(n))] *)
Definition throwArgError {A} (message : string) (argIndex : nat) : M A :=
  dev <- isDev ;;
  throw (TypeError (if dev then message
                    else createArgErrorMessageProd argIndex)).

(** *** [EventTarget.dispatchEvent] *)

(** The listeners registered for the event's type run in registration
    order, each on the store the previous one left. *)
Fixpoint invoke (ls : list (string * Listener)) (ev : Event) (s : Obj)
  : Obj * bool :=
  match ls with
  | [] => (s, false)
  | (t, l) :: rest =>
      if t =? type ev then
        let (s1, p1) := l ev s in
        let (s2, p2) := invoke rest ev s1 in
        (s2, p1 || p2)
      else invoke rest ev s
  end.

(** Returns [false] when the event is cancelable and some listener called
    [preventDefault], [true] otherwise. *)
Definition dispatchEvent (ev : Event) : M bool :=
  fun w =>
    let (s, prevented) := invoke (listeners w) ev (store w) in
    Returned (negb (cancelable ev && prevented))
      {| store := s; listeners := listeners w;
         log := log w ++ [{| event := ev; seen := store w |}];
         devMode := devMode w |}.

(** *** Entry operations *)

(** cacheEntryDelete.mjs *)
Definition cacheEntryDelete (cache cacheKey : Value) : M unit :=
  when (negb (instanceofCache cache))
    (throwArgError "Argument 1 `cache` must be a `Cache` instance." 1) ;;
  when (negb (typeof cacheKey =? "string"))
    (throwArgError "Argument 2 `cacheKey` must be a string." 2) ;;
  let key := asString cacheKey in
  s <- getStore ;;
  if hasProperty key s then
    putStore (delete key s) ;;
    _ <- dispatchEvent (CustomEvent (key ++ "/delete") false None) ;;
    ret tt
  else ret tt.

(** cacheEntryStale.mjs *)
Definition cacheEntryStale (cache cacheKey : Value) : M unit :=
  when (negb (instanceofCache cache))
    (throwArgError "Argument 1 `cache` must be a `Cache` instance." 1) ;;
  when (negb (typeof cacheKey =? "string"))
    (throwArgError "Argument 2 `cacheKey` must be a string." 2) ;;
  let key := asString cacheKey in
  s <- getStore ;;
  when (negb (hasProperty key s))
    (throw (Error ("Cache key `" ++ key ++ "` isn’t in the store."))) ;;
  _ <- dispatchEvent (CustomEvent (key ++ "/stale") false None) ;;
  ret tt.

(** Modelled from the spec: [cacheEntrySet] is not among the sources.
    "Unconditionally overwrites [store[key]], emits a non-cancelable
    [<key>/set] event with the new value as detail", after validating the
    cache and the key type like the other entry operations. *)
Definition cacheEntrySet (cache cacheKey cacheValue : Value) : M unit :=
  when (negb (instanceofCache cache))
    (throwArgError "Argument 1 `cache` must be a `Cache` instance." 1) ;;
  when (negb (typeof cacheKey =? "string"))
    (throwArgError "Argument 2 `cacheKey` must be a string." 2) ;;
  let key := asString cacheKey in
  s <- getStore ;;
  putStore (set key cacheValue s) ;;
  _ <- dispatchEvent (CustomEvent (key ++ "/set") false (Some cacheValue)) ;;
  ret tt.

(** Modelled from the spec: [cacheEntryPrune] is not among the sources.
    "If key absent, no-op.  If present, emits a cancelable [<key>/prune]
    event first; if any listener calls [preventDefault()] the prune is
    aborted (entry remains); otherwise proceeds to [deleteEntry]." *)
Definition cacheEntryPrune (cache cacheKey : Value) : M unit :=
  when (negb (instanceofCache cache))
    (throwArgError "Argument 1 `cache` must be a `Cache` instance." 1) ;;
  when (negb (typeof cacheKey =? "string"))
    (throwArgError "Argument 2 `cacheKey` must be a string." 2) ;;
  let key := asString cacheKey in
  s <- getStore ;;
  if has key s then
    notCanceled <- dispatchEvent (CustomEvent (key ++ "/prune") true None) ;;
    if notCanceled then cacheEntryDelete cache cacheKey else ret tt
  else ret tt.

(** *** [for (const key in cache.store) body]

    The keys are listed once, when the loop starts; a key is visited when
    its turn comes only if the property still exists then.  The loop lists
    enumerable properties, so the names inherited from [Object.prototype]
    are neither listed nor a reason to visit a key that was removed. *)
Fixpoint forInKeys (ks : list string) (body : string -> M unit) : M unit :=
  match ks with
  | [] => ret tt
  | k :: rest =>
      s <- getStore ;;
      (if has k s then body k else ret tt) ;;
      forInKeys rest body
  end.

Definition forIn (body : string -> M unit) : M unit :=
  s <- getStore ;;
  forInKeys (ownKeys s) body.

(** *** Bulk operations *)

(** cacheDelete.mjs *)
Definition cacheDelete (cache cacheKeyMatcher : Value) : M unit :=
  when (negb (instanceofCache cache))
    (throwArgError "Argument 1 `cache` must be a `Cache` instance." 1) ;;
  when (negb (isUndefined cacheKeyMatcher)
        && negb (typeof cacheKeyMatcher =? "function"))
    (throwArgError "Argument 2 `cacheKeyMatcher` must be a function." 2) ;;
  forIn (fun cacheKey =>
    if negb (truthy cacheKeyMatcher) || call cacheKeyMatcher cacheKey
    then cacheEntryDelete cache (VString cacheKey)
    else ret tt).

(** cacheStale.mjs; this version throws the development messages in every
    environment. *)
Definition cacheStale (cache cacheKeyMatcher : Value) : M unit :=
  when (negb (instanceofCache cache))
    (throw (TypeError "Argument 1 `cache` must be a `Cache` instance.")) ;;
  when (negb (isUndefined cacheKeyMatcher)
        && negb (typeof cacheKeyMatcher =? "function"))
    (throw (TypeError "Argument 2 `cacheKeyMatcher` must be a function.")) ;;
  forIn (fun cacheKey =>
    if negb (truthy cacheKeyMatcher) || call cacheKeyMatcher cacheKey
    then cacheEntryStale cache (VString cacheKey)
    else ret tt).

(** cachePrune.js *)
Definition cachePrune (cache cacheKeyMatcher : Value) : M unit :=
  when (negb (instanceofCache cache))
    (throwArgError "Argument 1 `cache` must be a `Cache` instance." 1) ;;
  when (negb (isUndefined cacheKeyMatcher)
        && negb (typeof cacheKeyMatcher =? "function"))
    (throwArgError "Argument 2 `cacheKeyMatcher` must be a function." 2) ;;
  forIn (fun cacheKey =>
    if negb (truthy cacheKeyMatcher) || call cacheKeyMatcher cacheKey
    then cacheEntryPrune cache (VString cacheKey)
    else ret tt).

End CacheCore.
Import CacheCore.

(** ** The loading registry and the in-flight loads *)

Module LoadingCore.

(** Modelled from the spec: [Loading] and [LoadingCacheValue] are not
    among the sources (only their tests and the callers that construct
    them are).  The spec gives a load three states, [PENDING] then
    [COMMITTED] or [ABORTED]; construction registers the load under its
    cache key; when the result promise settles the value is written with
    [setEntry] unless the abort signal has fired, and the load is
    unregistered either way.  A promise settles once. *)
Inductive Status : Type := PENDING | COMMITTED | ABORTED.

(** Modelled from the spec: a [LoadingCacheValue], of which the model keeps
    the owning cache key, whether the signal of its abort controller has
    fired, and its state. *)
Record LoadingCacheValue : Type := {
  cacheKey : string;
  signalAborted : bool;
  status : Status
}.

(** Modelled from the spec: [Loading.store], "mapping from cache key to a
    set of [LoadingCacheValue] instances currently in flight for that key".
    A load is named by its position in [loads]. *)
Definition Registry : Type := list (string * list nat).

(** Modelled from the spec: the cache, the loading registry with the edge
    events it has dispatched, and every load constructed so far. *)
Record System : Type := {
  cache : World;
  loadingStore : Registry;
  loadingLog : list string;
  loads : list LoadingCacheValue
}.

Definition inSet (id : nat) (ids : list nat) : bool :=
  existsb (Nat.eqb id) ids.

Definition loadingFor (key : string) (r : Registry) : list nat :=
  flat_map (fun e => if fst e =? key then snd e else []) r.

(** Modelled from the spec: [Loading.register], "add to the set for [key]
    (create the set if absent)". *)
Fixpoint register (key : string) (id : nat) (r : Registry) : Registry :=
  match r with
  | [] => [(key, [id])]
  | (k, ids) :: rest =>
      if k =? key
      then (k, if inSet id ids then ids else ids ++ [id]) :: rest
      else (k, ids) :: register key id rest
  end.

(** Modelled from the spec: [Loading.unregister], "remove from the set; if
    the set becomes empty, remove the key entirely". *)
Fixpoint unregister (key : string) (id : nat) (r : Registry) : Registry :=
  match r with
  | [] => []
  | (k, ids) :: rest =>
      if k =? key then
        match filter (fun i => negb (Nat.eqb id i)) ids with
        | [] => unregister key id rest
        | ids' => (k, ids') :: unregister key id rest
        end
      else (k, ids) :: unregister key id rest
  end.

Definition registered (id : nat) (r : Registry) : bool :=
  existsb (fun e => inSet id (snd e)) r.

(** Modelled from the spec: the events of [Loading], dispatched on the
    "zero-to-one and one-to-zero edges only". *)
Definition edge (key suffix : string) (before after : Registry)
  : list string :=
  match loadingFor key before, loadingFor key after with
  | [], _ :: _ => [(key ++ suffix)%string]
  | _ :: _, [] => [(key ++ suffix)%string]
  | _, _ => []
  end.

Definition setLoad (id : nat) (l : LoadingCacheValue)
  (ls : list LoadingCacheValue) : list LoadingCacheValue :=
  firstn id ls ++ l :: skipn (S id) ls.

(** Modelled from the spec: what can happen to the system, one step at a
    time: a load is constructed (with an abort controller that may have
    fired already), an abort controller fires, a result promise settles. *)
Inductive Action : Type :=
| Construct (key : string) (alreadyAborted : bool)
| Abort (id : nat)
| Settle (id : nat) (value : Value).

Definition actor (a : Action) : option nat :=
  match a with
  | Construct _ _ => None
  | Abort id => Some id
  | Settle id _ => Some id
  end.

(** Modelled from the spec: section 4.4.  Construction "immediately
    registers itself into [Loading] under [cacheKey]"; on settling, "if not
    already aborted, write the resolved value into [Cache] via [setEntry],
    then unregister from [Loading]"; if the signal fired before, "skip the
    [Cache] write entirely but still unregister".  A load that has settled
    does not settle again. *)
Definition step (a : Action) (st : System) : System :=
  match a with
  | Construct key alreadyAborted =>
      let id := List.length (loads st) in
      let r := register key id (loadingStore st) in
      {| cache := cache st;
         loadingStore := r;
         loadingLog := loadingLog st ++ edge key "/start" (loadingStore st) r;
         loads := loads st ++ [{| cacheKey := key;
                                  signalAborted := alreadyAborted;
                                  status := PENDING |}] |}
  | Abort id =>
      match nth_error (loads st) id with
      | Some l =>
          {| cache := cache st;
             loadingStore := loadingStore st;
             loadingLog := loadingLog st;
             loads := setLoad id {| cacheKey := cacheKey l;
                                    signalAborted := true;
                                    status := status l |} (loads st) |}
      | None => st
      end
  | Settle id value =>
      match nth_error (loads st) id with
      | Some l =>
          match status l with
          | PENDING =>
              let r := unregister (cacheKey l) id (loadingStore st) in
              {| cache :=
                   if signalAborted l then cache st
                   else final (cacheEntrySet VCache (VString (cacheKey l))
                                 value (cache st));
                 loadingStore := r;
                 loadingLog :=
                   loadingLog st ++ edge (cacheKey l) "/end" (loadingStore st) r;
                 loads := setLoad id {| cacheKey := cacheKey l;
                                        signalAborted := signalAborted l;
                                        status := if signalAborted l
                                                  then ABORTED
                                                  else COMMITTED |} (loads st) |}
          | _ => st
          end
      | None => st
      end
  end.

Definition run (tr : list Action) (st : System) : System :=
  fold_left (fun s a => step a s) tr st.

Definition start (w : World) : System :=
  {| cache := w; loadingStore := []; loadingLog := []; loads := [] |}.

Definition statusOf (id : nat) (st : System) : option Status :=
  option_map status (nth_error (loads st) id).

Definition settles (id : nat) (a : Action) : bool :=
  match a with Settle i _ => Nat.eqb i id | _ => false end.

End LoadingCore.

(** ** The older client: [GraphQL#reset] *)

Module GraphQLClient.

(** A handler given to [on]: it receives the event details and may write
    the cache. *)
Definition Handler : Type := Value -> Obj -> Obj.

(** One [emit], as recorded by the model: the event type, the
    [exceptCacheKey] of its details, the cache at the moment of the
    call. *)
Record Emitted : Type := {
  etype : string;
  edetail : Value;
  ecache : Obj
}.

Record GraphQL : Type := {
  cache : Obj;
  handlers : list (string * Handler);
  emitted : list Emitted
}.

Fixpoint handle (hs : list (string * Handler)) (t : string) (d : Value)
  (c : Obj) : Obj :=
  match hs with
  | [] => c
  | (u, h) :: rest => handle rest t d (if u =? t then h d c else c)
  end.

(** [this.emit(type, details)] of mitt: the handlers of the type, then the
    ["*"] handlers. *)
Definition emit (t : string) (d : Value) (g : GraphQL) : GraphQL :=
  {| cache := handle (handlers g) "*" d (handle (handlers g) t d (cache g));
     handlers := handlers g;
     emitted := emitted g ++ [{| etype := t; edetail := d; ecache := cache g |}] |}.

Definition deleteKey (g : GraphQL) (cacheKey : string) : GraphQL :=
  {| cache := delete cacheKey (cache g);
     handlers := handlers g;
     emitted := emitted g |}.

(** GraphQL.mjs, [reset] *)
Definition reset (exceptCacheKey : Value) (g : GraphQL) : GraphQL :=
  let cacheKeys := keys (cache g) in
  let cacheKeys :=
    if truthy exceptCacheKey
    then filter (fun hash => negb (strictEqString hash exceptCacheKey)) cacheKeys
    else cacheKeys in
  let g := fold_left deleteKey cacheKeys g in
  emit "reset" exceptCacheKey g.

End GraphQLClient.

(** ** Listeners that only observe *)

(** The listeners of the tests record the events they receive, and the
    prune prevention hook vetoes; none writes the store.  [quiet] listeners
    leave the store as they find it; [observers] moreover decide their veto
    from the event alone. *)
Definition quiet (ls : list (string * Listener)) : Prop :=
  forall t l, In (t, l) ls -> forall ev s, fst (l ev s) = s.

Definition observers (ls : list (string * Listener)) : Prop :=
  forall t l, In (t, l) ls ->
    exists veto : Event -> bool, forall ev s, l ev s = (s, veto ev).

(** Whether some listener of the event calls [preventDefault], on the store
    [s]. *)
Definition vetoed (ls : list (string * Listener)) (ev : Event) (s : Obj) : bool :=
  snd (invoke ls ev s).

(** The event types of a stretch of the log. *)
Definition types (ds : list Dispatch) : list string :=
  map (fun d => type (event d)) ds.

(** [l1] is [l2] with some elements left out, the order kept. *)
Inductive subseq {A : Type} : list A -> list A -> Prop :=
| subseq_nil : subseq [] []
| subseq_skip : forall x l1 l2, subseq l1 l2 -> subseq l1 (x :: l2)
| subseq_take : forall x l1 l2, subseq l1 l2 -> subseq (x :: l1) (x :: l2).

(** The matcher a bulk operation applies, [!cacheKeyMatcher ||
    cacheKeyMatcher(cacheKey)]. *)
Definition matches (cacheKeyMatcher : Value) (cacheKey : string) : bool :=
  negb (truthy cacheKeyMatcher) || call cacheKeyMatcher cacheKey.

(** Two stores with the same entries, whatever their order. *)
Definition sameEntries (s1 s2 : Obj) : Prop := forall k, get k s1 = get k s2.

(** The events of the entry operations. *)
Definition setEvent (key : string) (value : Value) : Event :=
  CustomEvent (key ++ "/set") false (Some value).

Definition deleteEvent (key : string) : Event :=
  CustomEvent (key ++ "/delete") false None.

Definition staleEvent (key : string) : Event :=
  CustomEvent (key ++ "/stale") false None.

Definition pruneEvent (key : string) : Event :=
  CustomEvent (key ++ "/prune") true None.

(** The world after the prune event of [key] has been dispatched. *)
Definition pruned (w : World) (key : string) : World :=
  {| store := fst (invoke (listeners w) (pruneEvent key) (store w));
     listeners := listeners w;
     log := log w ++ [{| event := pruneEvent key; seen := store w |}];
     devMode := devMode w |}.

(** ** Caches as the tests build them *)

(** A listener that records what it is told, and one that vetoes. *)
Definition recorder : Listener := fun _ s => (s, false).

Definition preventer : Listener := fun _ s => (s, true).

Definition cacheAB (ls : list (string * Listener)) : World :=
  {| store := [("a", VNumber 1); ("b", VNumber 2)];
     listeners := ls;
     log := [];
     devMode := true |}.

(** [new Cache()], with its listeners. *)
Definition cacheEmpty (ls : list (string * Listener)) : World :=
  {| store := []; listeners := ls; log := []; devMode := true |}.


(** ** The walk of a bulk operation, as a function of the store *)

(** What a run of [body] does to a store [s], started with an empty log:
    the store it leaves and the dispatches it makes. *)
Definition effect (body : M unit) (ls : list (string * Listener)) (dev : bool)
  (s : Obj) : Obj * list Dispatch :=
  let w := final (body {| store := s; listeners := ls; log := [];
                          devMode := dev |}) in
  (store w, log w).

(** The visit of one key by a bulk operation with entry operation [op]. *)
Definition visitOf (op : Value -> Value -> M unit) (matcher : Value)
  (ls : list (string * Listener)) (dev : bool) (k : string) (s : Obj)
  : Obj * list Dispatch :=
  if matches matcher k then effect (op VCache (VString k)) ls dev s else (s, []).

(** [forInKeys] with the state threaded by hand. *)
Fixpoint walk (visit : string -> Obj -> Obj * list Dispatch)
  (ks : list string) (s : Obj) : Obj * list Dispatch :=
  match ks with
  | [] => (s, [])
  | k :: rest =>
      if has k s then
        let (s1, d1) := visit k s in
        let (s2, d2) := walk visit rest s1 in
        (s2, d1 ++ d2)
      else walk visit rest s
  end.

(** An entry operation is [regular] when, on a key of the store, it
    returns, keeps the listeners and the environment, and only appends to
    the log. *)
Definition regular (op : Value -> Value -> M unit) : Prop :=
  forall w k, has k (store w) = true ->
    op VCache (VString k) w =
    Returned tt
      {| store := fst (effect (op VCache (VString k)) (listeners w) (devMode w)
                         (store w));
         listeners := listeners w;
         log := log w ++ snd (effect (op VCache (VString k)) (listeners w)
                                (devMode w) (store w));
         devMode := devMode w |}.

(** The visits when the listeners only observe. *)
Definition deleteQuietly (matcher : Value) (k : string) (s : Obj)
  : Obj * list Dispatch :=
  if matches matcher k
  then (delete k s, [{| event := deleteEvent k; seen := delete k s |}])
  else (s, []).

Definition staleQuietly (matcher : Value) (k : string) (s : Obj)
  : Obj * list Dispatch :=
  if matches matcher k
  then (s, [{| event := staleEvent k; seen := s |}])
  else (s, []).

Definition pruneQuietly (veto : Event -> bool) (matcher : Value) (k : string)
  (s : Obj) : Obj * list Dispatch :=
  if matches matcher k then
    if veto (pruneEvent k)
    then (s, [{| event := pruneEvent k; seen := s |}])
    else (delete k s, [{| event := pruneEvent k; seen := s |};
                       {| event := deleteEvent k; seen := delete k s |}])
  else (s, []).

(** The veto of observers on an event. *)
Definition vetoOf (ls : list (string * Listener)) (ev : Event) : bool :=
  vetoed ls ev [].

(** The optional second argument of a bulk operation. *)
Definition matcherArg (m : option (string -> bool)) : Value :=
  match m with
  | Some f => VFunction f
  | None => VUndefined
  end.

(** The events of a stretch of the log that can be canceled. *)
Definition cancelables (ds : list Dispatch) : list Dispatch :=
  filter (fun d => cancelable (event d)) ds.

(** [k] is one of [ks]. *)
Definition among (k : string) (ks : list string) : bool :=
  existsb (String.eqb k) ks.

(** The world a bulk operation leaves, in terms of its walk. *)
Definition walked (visit : string -> Obj -> Obj * list Dispatch) (w : World)
  : World :=
  {| store := fst (walk visit (ownKeys (store w)) (store w));
     listeners := listeners w;
     log := log w ++ snd (walk visit (ownKeys (store w)) (store w));
     devMode := devMode w |}.

(** The keys of the list [ks] that a loop started on the store [s]
    processes, turn by turn.  When the turn of a key comes and the key is
    no longer in the store, the key is passed over and the loop goes on
    with the next key, on the same store.  Otherwise the key is visited: it
    counts as processed when it matches, and the loop goes on with the next
    key on the store that visit left. *)
Fixpoint visited (visit : string -> Obj -> Obj * list Dispatch)
  (m : string -> bool) (ks : list string) (s : Obj) : list string :=
  match ks with
  | [] => []
  | k :: rest =>
      if has k s then
        if m k then k :: visited visit m rest (fst (visit k s))
        else visited visit m rest (fst (visit k s))
      else visited visit m rest s
  end.

(** The marks by which the log shows which keys were processed: the events
    themselves for [cacheDelete] and [cacheStale], the cancelable ones for
    [cachePrune]. *)
Definition pruneMarks (ds : list Dispatch) : list string :=
  types (cancelables ds).

(** A run of the bulk operation [bulk], whose loop applies the entry
    operation [entry], returns, and the keys it processes, as the log
    shows them, are exactly the keys [visited]: of the keys listed when the
    loop starts, those that match and are still in the store when their
    turn comes, a key that is gone being passed over without ending the
    loop.  So they are matching keys of that list, in the order listed and
    none twice; and all of them when the listeners write nothing. *)
Definition processes (bulk entry : Value -> Value -> M unit)
  (marks : list Dispatch -> list string) (suffix : string)
  (m : option (string -> bool)) (w : World) : Prop :=
  exists w' new ks,
    bulk VCache (matcherArg m) w = Returned tt w'
    /\ log w' = log w ++ new
    /\ marks new = map (fun k => (k ++ suffix)%string) ks
    /\ ks = visited (visitOf entry (matcherArg m) (listeners w) (devMode w))
               (matches (matcherArg m)) (ownKeys (store w)) (store w)
    /\ subseq ks (filter (matches (matcherArg m)) (ownKeys (store w)))
    /\ NoDup ks
    /\ (quiet (listeners w) ->
        ks = filter (matches (matcherArg m)) (ownKeys (store w))).

(** The cache of the counterexample to the snapshot: the listener of
    [a/stale] removes entry [b]. *)
Definition meddler : Listener := fun _ s => (delete "b" s, false).

Definition cacheMeddled : World := cacheAB [("a/stale", meddler)].

(** A bulk operation [op] with matcher [f], run on two stores, applies to
    the matching keys only and gives the same result on both.  It returns
    on both; on each it removes the entries of the keys [d] selects and
    leaves every other entry as it was, so the stores it leaves have the
    same entries, and an entry whose key does not match is as before; and
    the events by which the log shows the keys processed are those of the
    matching keys of the store, one for each, in the order of enumeration,
    so that the two runs dispatch the same events up to their order. *)
Definition orderIndependent (op : Value -> Value -> M unit)
  (marks : list Dispatch -> list string) (suffix : string)
  (d f : string -> bool) (ls : list (string * Listener)) (dev : bool)
  (l1 l2 : list Dispatch) (s1 s2 : Obj) : Prop :=
  exists w1 w2 new1 new2,
    op VCache (VFunction f)
      {| store := s1; listeners := ls; log := l1; devMode := dev |}
    = Returned tt w1
    /\ op VCache (VFunction f)
         {| store := s2; listeners := ls; log := l2; devMode := dev |}
       = Returned tt w2
    /\ log w1 = l1 ++ new1
    /\ log w2 = l2 ++ new2
    /\ (forall k, get k (store w1) = if d k then None else get k s1)
    /\ (forall k, get k (store w2) = if d k then None else get k s2)
    /\ (forall k, d k = true -> f k = true)
    /\ sameEntries (store w1) (store w2)
    /\ (forall k, f k = false ->
          get k (store w1) = get k s1 /\ get k (store w2) = get k s2)
    /\ marks new1 = map (fun k => (k ++ suffix)%string) (filter f (ownKeys s1))
    /\ marks new2 = map (fun k => (k ++ suffix)%string) (filter f (ownKeys s2))
    /\ Permutation (marks new1) (marks new2).

(** The caches of the two [cacheDelete] scenarios. *)
Definition cacheOfAB (ls : list (string * Listener)) (dev : bool) : World :=
  {| store := [("a", VNumber 1); ("b", VNumber 2)];
     listeners := ls; log := []; devMode := dev |}.

Definition cacheOfABC (ls : list (string * Listener)) (dev : bool) : World :=
  {| store := [("a", VNumber 1); ("b", VNumber 2); ("c", VNumber 3)];
     listeners := ls; log := []; devMode := dev |}.

(** The cache of the scenario with three entries: the listener of
    [a/stale] removes entry [b], and [c] comes after it. *)
Definition cacheMeddledABC : World := cacheOfABC [("a/stale", meddler)] true.

(** [k => k !== 'b'] *)
Definition notB : string -> bool := fun k => negb (k =? "b").

(** The listeners of the [cacheDelete] test. *)
Definition deleteRecorders : list (string * Listener) :=
  [("a/delete", recorder); ("b/delete", recorder); ("c/delete", recorder)].

(** The stores of the order scenario: the same entries, inserted in two
    orders. *)
Definition storeABC : Obj := [("a", VNumber 1); ("b", VNumber 2); ("c", VNumber 3)].

Definition storeCAB : Obj := [("c", VNumber 3); ("a", VNumber 1); ("b", VNumber 2)].

(** The cache of the counterexample to the independence of the order: a
    listener that prevents the pruning of [a] as long as the store holds
    [b].  It reads the store and writes nothing. *)
Definition keepWhileB : Listener := fun _ s => (s, has "b" s).

Definition storeAB : Obj := [("a", VNumber 1); ("b", VNumber 2)].

Definition storeBA : Obj := [("b", VNumber 2); ("a", VNumber 1)].

Definition cacheKeepWhileB (s : Obj) : World :=
  {| store := s; listeners := [("a/prune", keepWhileB)]; log := [];
     devMode := true |}.

(** Listeners that veto the pruning of [a] and record the deletions. *)
Definition keepA : list (string * Listener) :=
  [("a/prune", preventer); ("a/delete", recorder); ("c/delete", recorder)].

(** ** Argument checks *)

(** The arguments an entry operation accepts: a [Cache] and a string. *)
Definition entryArgs (cache cacheKey : Value) : bool :=
  instanceofCache cache && (typeof cacheKey =? "string").

(** The arguments a bulk operation accepts: a [Cache] and, if given, a
    function. *)
Definition bulkArgs (cache cacheKeyMatcher : Value) : bool :=
  instanceofCache cache
  && (isUndefined cacheKeyMatcher || (typeof cacheKeyMatcher =? "function")).

(** The run threw a [TypeError] and the world is as it was before the
    call. *)
Definition failsFast (r : Result unit) (w : World) : Prop :=
  exists message, r = Threw (TypeError message) w.

(** ** The loading system, well formed *)

Import LoadingCore.

(** The registry holds exactly the pending loads, each under its own cache
    key. *)
Definition wf (st : System) : Prop :=
  (forall k ids id,
      In (k, ids) (loadingStore st) -> In id ids ->
      exists l, nth_error (loads st) id = Some l
                /\ cacheKey l = k /\ status l = PENDING)
  /\ (forall id l,
         nth_error (loads st) id = Some l -> status l = PENDING ->
         registered id (loadingStore st) = true).

(** A load in flight for key [x], as [useLoadGraphQL] starts it. *)
Definition oneLoad : System :=
  run [Construct "x" false] (start (cacheAB [("x/set", recorder)])).

(** ** The client of the counterexample to [reset] *)

Import GraphQLClient.

(** The key that [reset] exempts: its argument when it is a string other
    than the empty one. *)
Definition exempt (exceptCacheKey : Value) : option string :=
  match exceptCacheKey with
  | VString s => if s =? "" then None else Some s
  | _ => None
  end.

Definition clientEmptyKey : GraphQL :=
  {| GraphQLClient.cache := [("", VNumber 1); ("b", VNumber 2)];
     handlers := [];
     emitted := [] |}.

(** ** Further notions for the cache operations *)

(** The message of an argument error: the descriptive one outside
    production, [createArgErrorMessageProd(argIndex)] in production. *)
Definition argMessage (w : World) (message : string) (argIndex : nat) : string :=
  if devMode w then message else createArgErrorMessageProd argIndex.

(** The store with the entries that match left out, the others in place. *)
Definition withoutMatching (matcher : Value) (s : Obj) : Obj :=
  filter (fun e => negb (matches matcher (fst e))) s.

(** The dispatches of [cacheStale] on a store nobody writes. *)
Definition staleDispatches (matcher : Value) (s : Obj) : list Dispatch :=
  map (fun k => {| event := staleEvent k; seen := s |})
    (filter (matches matcher) (ownKeys s)).

(** The name of the event of one kind for one key, [`${cacheKey}/<kind>`]. *)
Definition eventName (key kind : string) : string := key ++ "/" ++ kind.

Definition eventKinds : list string := ["set"; "delete"; "stale"; "prune"].

(** Every listener is registered for an event of some key and kind other
    than the kind [kind] of key [key]. *)
Definition noListenerFor (key kind : string) (ls : list (string * Listener))
  : Prop :=
  forall t l, In (t, l) ls ->
    exists j kd, In kd eventKinds /\ t = eventName j kd
                 /\ (j <> key \/ kd <> kind).

(** A listener that empties the store and vetoes. *)
Definition wrecker : Listener := fun _ _ => ([], true).

(** ** The older client: [GraphQL#fetch] and [GraphQL#operate] *)

Module Operations.

(** What [response.json()] gives: a rejection with an error, or the parsed
    value.  Of the parsed value the code reads the properties [errors] and
    [data] by destructuring; [Parsed None] is the value [null], which
    cannot be destructured, [Parsed (Some (errors, data))] any other value,
    with [VUndefined] for a property it does not have. *)
Inductive Body : Type :=
| ParseRejected (message : string)
| Parsed (payload : option (Value * Value)).

(** What the global [fetch] gives: a rejection with an error, or a
    response. *)
Inductive Outcome : Type :=
| Rejected (message : string)
| Responded (ok : bool) (status : Z) (statusText : string) (body : Body).

Record HTTPError : Type := {
  status : Z;
  statusText : string
}.

(** A cache value, [GraphQLCacheValue]: each property is there or not. *)
Record CacheValue : Type := {
  fetchError : option string;
  httpError : option HTTPError;
  parseError : option string;
  graphQLErrors : option Value;
  data : option Value
}.

(** [const cacheValue = {}] *)
Definition emptyValue : CacheValue :=
  {| fetchError := None; httpError := None; parseError := None;
     graphQLErrors := None; data := None |}.

(** GraphQL.mjs, [fetch]: what the handlers chained on the fetch promise
    make of the cache value, up to the last [then].  [None] when a handler
    throws, so that the last [then] does not run: destructuring [null]. *)
Definition fill (o : Outcome) : option CacheValue :=
  match o with
  | Rejected message =>
      Some {| fetchError := Some message; httpError := None;
              parseError := None; graphQLErrors := None; data := None |}
  | Responded ok st text body =>
      let http :=
        if negb ok then Some {| status := st; statusText := text |} else None in
      match body with
      | ParseRejected message =>
          Some {| fetchError := None; httpError := http;
                  parseError := Some message;
                  graphQLErrors := None; data := None |}
      | Parsed None => None
      | Parsed (Some (errors, dat)) =>
          Some {| fetchError := None; httpError := http;
                  parseError := if negb (truthy errors) && negb (truthy dat)
                                then Some "Malformed payload." else None;
                  graphQLErrors := if truthy errors then Some errors else None;
                  data := if truthy dat then Some dat else None |}
      end
  end.

(** GraphQL.mjs, [fetch]: the cache value object when the handler of the
    parsed payload throws; [httpError] was written before the payload was
    read. *)
Definition unfilled (o : Outcome) : CacheValue :=
  match o with
  | Responded false st text _ =>
      {| fetchError := None;
         httpError := Some {| status := st; statusText := text |};
         parseError := None; graphQLErrors := None; data := None |}
  | _ => emptyValue
  end.

(** The state of [cacheValuePromise]. *)
Inductive Fate : Type := InFlight | Fulfilled | Failed.

(** One call of [fetch]: the cache key, where its [cacheValue] object
    lives, whether a global [fetch] function was there, how many
    [then(() => this.reset(cacheKey))] reactions wait on the promise, and
    the state of the promise. *)
Record Operation : Type := {
  okey : string;
  ovalue : nat;
  ofetch : bool;
  oresets : nat;
  ofate : Fate
}.

(** The client: the part [reset] works on, [this.operations] (cache key to
    promise, a promise being [VObject] of its position in [promises]), the
    promises and the cache value objects made so far.  The cache holds a
    cache value as [VObject] of its position in [values]. *)
Record Client : Type := {
  graphql : GraphQLClient.GraphQL;
  operations : Obj;
  promises : list Operation;
  values : list CacheValue
}.

Definition newClient (g : GraphQLClient.GraphQL) : Client :=
  {| graphql := g; operations := []; promises := []; values := [] |}.

(** The list with its [n]th element replaced. *)
Definition setNth {A : Type} (n : nat) (x : A) (l : list A) : list A :=
  firstn n l ++ x :: skipn (S n) l.

(** The promise a value of [this.operations] stands for. *)
Definition asPromise (v : Value) : nat :=
  match v with VObject p => p | _ => 0 end.

(** GraphQL.mjs, [fetch], up to its return: the cache value object and the
    promise are made, the promise is put in [this.operations], the [fetch]
    event is emitted.  Returns the promise.  The details of the [fetch] and
    [cache] events are recorded, and passed to the handlers, by their
    [cacheKey]. *)
Definition fetch (fetchAvailable : bool) (cacheKey : string) (c : Client)
  : Client * nat :=
  let promise := List.length (promises c) in
  ({| graphql := GraphQLClient.emit "fetch" (VString cacheKey) (graphql c);
      operations := set cacheKey (VObject promise) (operations c);
      promises := promises c ++ [{| okey := cacheKey;
                                    ovalue := List.length (values c);
                                    ofetch := fetchAvailable;
                                    oresets := 0;
                                    ofate := InFlight |}];
      values := values c ++ [emptyValue] |},
   promise).

(** [cacheValuePromise.then(() => this.reset(cacheKey))] *)
Definition thenReset (promise : nat) (c : Client) : Client :=
  match nth_error (promises c) promise with
  | Some o =>
      {| graphql := graphql c;
         operations := operations c;
         promises := setNth promise
                       {| okey := okey o; ovalue := ovalue o; ofetch := ofetch o;
                          oresets := S (oresets o); ofate := ofate o |}
                       (promises c);
         values := values c |}
  | None => c
  end.

(** What [operate] returns. *)
Record OperationLoading : Type := {
  cacheKey : string;
  cacheValue : option Value;
  cacheValuePromise : nat
}.

(** GraphQL.mjs, [operate].  The cache key is [hashObject(fetchOptions)];
    [hashObject] and [graphqlFetchOptions] are not among the sources, so the
    operation enters by its cache key. *)
Definition operate (fetchAvailable : bool) (key : string) (resetOnLoad : bool)
  (c : Client) : Client * OperationLoading :=
  let (c1, promise) :=
    match get key (operations c) with
    | Some v => if truthy v then (c, asPromise v) else fetch fetchAvailable key c
    | None => fetch fetchAvailable key c
    end in
  let c2 := if resetOnLoad then thenReset promise c1 else c1 in
  (c2, {| cacheKey := key;
          cacheValue := get key (GraphQLClient.cache (graphql c2));
          cacheValuePromise := promise |}).

(** GraphQL.mjs, [fetch], the last [then]: the fetch of [promise] has
    settled with [outcome].  Without a global [fetch] the fetcher rejects
    with its own error. *)
Definition settle (promise : nat) (outcome : Outcome) (c : Client) : Client :=
  match nth_error (promises c) promise with
  | Some o =>
      match ofate o with
      | InFlight =>
          let outcome :=
            if ofetch o then outcome
            else Rejected "Global fetch API or polyfill unavailable." in
          match fill outcome with
          | Some v =>
              let g := graphql c in
              let g :=
                {| GraphQLClient.cache :=
                     set (okey o) (VObject (ovalue o)) (GraphQLClient.cache g);
                   GraphQLClient.handlers := GraphQLClient.handlers g;
                   GraphQLClient.emitted := GraphQLClient.emitted g |} in
              {| graphql := GraphQLClient.emit "cache" (VString (okey o)) g;
                 operations := delete (okey o) (operations c);
                 promises := setNth promise
                               {| okey := okey o; ovalue := ovalue o;
                                  ofetch := ofetch o; oresets := oresets o;
                                  ofate := Fulfilled |} (promises c);
                 values := setNth (ovalue o) v (values c) |}
          | None =>
              {| graphql := graphql c;
                 operations := operations c;
                 promises := setNth promise
                               {| okey := okey o; ovalue := ovalue o;
                                  ofetch := ofetch o; oresets := oresets o;
                                  ofate := Failed |} (promises c);
                 values := setNth (ovalue o) (unfilled outcome) (values c) |}
          end
      | _ => c
      end
  | None => c
  end.

(** One [then(() => this.reset(cacheKey))] reaction of a fulfilled promise
    runs. *)
Definition react (promise : nat) (c : Client) : Client :=
  match nth_error (promises c) promise with
  | Some o =>
      match ofate o, oresets o with
      | Fulfilled, S n =>
          {| graphql := GraphQLClient.reset (VString (okey o)) (graphql c);
             operations := operations c;
             promises := setNth promise
                           {| okey := okey o; ovalue := ovalue o;
                              ofetch := ofetch o; oresets := n;
                              ofate := Fulfilled |} (promises c);
             values := values c |}
      | _, _ => c
      end
  | None => c
  end.

(** What can happen to the client, one step at a time. *)
Inductive Action : Type :=
| Operate (fetchAvailable : bool) (key : string) (resetOnLoad : bool)
| Settle (promise : nat) (outcome : Outcome)
| React (promise : nat).

Definition step (a : Action) (c : Client) : Client :=
  match a with
  | Operate fetchAvailable key resetOnLoad =>
      fst (operate fetchAvailable key resetOnLoad c)
  | Settle promise outcome => settle promise outcome c
  | React promise => react promise c
  end.

Definition run (tr : list Action) (c : Client) : Client :=
  fold_left (fun c a => step a c) tr c.

(** The types of the events emitted so far. *)
Definition emittedTypes (c : Client) : list string :=
  map GraphQLClient.etype (GraphQLClient.emitted (graphql c)).

End Operations.

(** Every promise that is not fulfilled is the one [this.operations] holds
    for its cache key. *)
Definition tracked (c : Operations.Client) : Prop :=
  forall p o,
    nth_error (Operations.promises c) p = Some o ->
    Operations.ofate o <> Operations.Fulfilled ->
    get (Operations.okey o) (Operations.operations c) = Some (VObject p).

(** A client with one operation in flight for key [k]. *)
Definition oneOperation : Operations.Client :=
  Operations.run [Operations.Operate true "k" false]
    (Operations.newClient
       {| GraphQLClient.cache := []; GraphQLClient.handlers := [];
          GraphQLClient.emitted := [] |}).

(** Promise [p] is for key [k] and has failed. *)
Definition failedFor (k : string) (p : nat) (c : Operations.Client) : Prop :=
  exists o,
    nth_error (Operations.promises c) p = Some o
    /\ Operations.okey o = k
    /\ Operations.ofate o = Operations.Failed.

(** Promise [p] is for key [k], was made with or without a global [fetch],
    has [r] reset reactions waiting and is in state [f]. *)
Definition promiseIs (k : string) (avail : bool) (r : nat)
  (f : Operations.Fate) (p : nat) (c : Operations.Client) : Prop :=
  exists a,
    nth_error (Operations.promises c) p
    = Some {| Operations.okey := k; Operations.ovalue := a;
              Operations.ofetch := avail; Operations.oresets := r;
              Operations.ofate := f |}.

(** ** The earliest client: cache update listeners *)

Module CacheUpdates.

(** [this.listeners]: fetch options hash to the array of callbacks added
    for it.  A callback is named by a number; the same function added twice
    is the same number twice. *)
Definition Listeners : Type := list (string * list nat).

(** [this.listeners[hash]] *)
Fixpoint lookup (hash : string) (ls : Listeners) : option (list nat) :=
  match ls with
  | [] => None
  | (h, cs) :: rest => if h =? hash then Some cs else lookup hash rest
  end.

(** [this.listeners[hash] = callbacks] *)
Fixpoint assign (hash : string) (callbacks : list nat) (ls : Listeners)
  : Listeners :=
  match ls with
  | [] => [(hash, callbacks)]
  | (h, cs) :: rest =>
      if h =? hash then (h, callbacks) :: rest
      else (h, cs) :: assign hash callbacks rest
  end.

(** [delete this.listeners[hash]] *)
Fixpoint remove (hash : string) (ls : Listeners) : Listeners :=
  match ls with
  | [] => []
  | (h, cs) :: rest =>
      if h =? hash then remove hash rest else (h, cs) :: remove hash rest
  end.

(** [onCacheUpdate]: an absent array is created, the callback is pushed. *)
Definition onCacheUpdate (hash : string) (callback : nat) (ls : Listeners)
  : Listeners :=
  let ls :=
    match lookup hash ls with
    | Some _ => ls
    | None => assign hash [] ls
    end in
  match lookup hash ls with
  | Some cs => assign hash (cs ++ [callback]) ls
  | None => ls
  end.

(** [offCacheUpdate]: the array is filtered, and deleted when nothing is
    left. *)
Definition offCacheUpdate (hash : string) (callback : nat) (ls : Listeners)
  : Listeners :=
  match lookup hash ls with
  | Some cs =>
      let ls :=
        assign hash (filter (fun c => negb (Nat.eqb c callback)) cs) ls in
      match lookup hash ls with
      | Some [] => remove hash ls
      | _ => ls
      end
  | None => ls
  end.

(** A call of one of the two. *)
Inductive Call : Type :=
| On (hash : string) (callback : nat)
| Off (hash : string) (callback : nat).

Definition call (c : Call) (ls : Listeners) : Listeners :=
  match c with
  | On hash callback => onCacheUpdate hash callback ls
  | Off hash callback => offCacheUpdate hash callback ls
  end.

Definition calls (cs : list Call) (ls : Listeners) : Listeners :=
  fold_left (fun ls c => call c ls) cs ls.

(** The callbacks [emitCacheUpdate] would call for a hash, in order. *)
Definition callbacksFor (hash : string) (ls : Listeners) : list nat :=
  match lookup hash ls with
  | Some cs => cs
  | None => []
  end.

End CacheUpdates.

(** No hash has an empty array of callbacks. *)
Definition noEmptyArray (ls : CacheUpdates.Listeners) : Prop :=
  forall hash, CacheUpdates.lookup hash ls <> Some [].

(** Every value [this.operations] holds is a promise made for that key and
    not fulfilled. *)
Definition held (c : Operations.Client) : Prop :=
  forall k v,
    get k (Operations.operations c) = Some v ->
    exists p o,
      v = VObject p
      /\ nth_error (Operations.promises c) p = Some o
      /\ Operations.okey o = k
      /\ Operations.ofate o <> Operations.Fulfilled.
(** * Facts about objects *)

Section ObjFacts.

Lemma has_In (k : string) (o : Obj) : has k o = true <-> In k (map fst o).
Proof.
  induction o as [|[j v] o IH]; cbn.
  - split; [discriminate | tauto].
  - rewrite orb_true_iff, IH, String.eqb_eq. tauto.
Qed.

Lemma has_get (k : string) (o : Obj) :
  has k o = true <-> exists v, get k o = Some v.
Proof.
  induction o as [|[j v] o IH]; cbn.
  - split; [discriminate | intros [v H]; discriminate].
  - destruct (j =? k); cbn; [|exact IH].
    split; [eauto | reflexivity].
Qed.

Lemma has_false_get (k : string) (o : Obj) : has k o = false -> get k o = None.
Proof.
  intros H. destruct (get k o) eqn:E; [|reflexivity].
  assert (has k o = true) by (apply has_get; eauto). congruence.
Qed.

Lemma has_delete_same (k : string) (o : Obj) : has k (delete k o) = false.
Proof.
  induction o as [|[j v] o IH]; cbn; [reflexivity|].
  destruct (j =? k) eqn:E; cbn; [exact IH|]. now rewrite E.
Qed.

Lemma has_delete_other (k j : string) (o : Obj) :
  j <> k -> has j (delete k o) = has j o.
Proof.
  intros N. induction o as [|[i v] o IH]; cbn; [reflexivity|].
  destruct (i =? k) eqn:E; cbn.
  - apply String.eqb_eq in E. subst i.
    apply not_eq_sym, String.eqb_neq in N. now rewrite N.
  - now rewrite IH.
Qed.

Lemma get_delete_same (k : string) (o : Obj) : get k (delete k o) = None.
Proof. apply has_false_get, has_delete_same. Qed.

Lemma get_delete_other (k j : string) (o : Obj) :
  j <> k -> get j (delete k o) = get j o.
Proof.
  intros N. induction o as [|[i v] o IH]; cbn; [reflexivity|].
  destruct (i =? k) eqn:E; cbn.
  - apply String.eqb_eq in E. subst i.
    apply not_eq_sym, String.eqb_neq in N. now rewrite N.
  - now rewrite IH.
Qed.

Lemma delete_absent (k : string) (o : Obj) : has k o = false -> delete k o = o.
Proof.
  induction o as [|[j v] o IH]; cbn; [reflexivity|].
  intros H. apply orb_false_iff in H as [E H]. rewrite E. now rewrite IH.
Qed.

Lemma get_set_same (k : string) (v : Value) (o : Obj) :
  get k (set k v o) = Some v.
Proof.
  induction o as [|[j u] o IH]; cbn.
  - now rewrite String.eqb_refl.
  - destruct (j =? k) eqn:E; cbn; now rewrite E.
Qed.

Lemma get_set_other (k j : string) (v : Value) (o : Obj) :
  j <> k -> get j (set k v o) = get j o.
Proof.
  intros N. induction o as [|[i u] o IH]; cbn.
  - apply not_eq_sym, String.eqb_neq in N. now rewrite N.
  - destruct (i =? k) eqn:E; cbn; [|now rewrite IH].
    apply String.eqb_eq in E. subst i.
    apply not_eq_sym, String.eqb_neq in N. now rewrite N.
Qed.

Lemma hasProperty_has (k : string) (o : Obj) :
  has k o = true -> hasProperty k o = true.
Proof. unfold hasProperty. now intros ->. Qed.

Lemma hasProperty_own (k : string) (o : Obj) :
  inherited k = false -> hasProperty k o = has k o.
Proof. unfold hasProperty. intros ->. apply orb_false_r. Qed.

End ObjFacts.

(** * Facts about dispatch *)

Section DispatchFacts.

Lemma quiet_cons t l ls : quiet ((t, l) :: ls) -> quiet ls.
Proof. intros Q u k H. apply (Q u k). now right. Qed.

Lemma observers_quiet ls : observers ls -> quiet ls.
Proof.
  intros O t l H ev s. destruct (O t l H) as [veto E]. now rewrite E.
Qed.

Lemma invoke_quiet ls ev s : quiet ls -> fst (invoke ls ev s) = s.
Proof.
  revert s. induction ls as [|[t l] ls IH]; intros s Q; cbn; [reflexivity|].
  pose proof (IH) as IH'. specialize (Q t l (or_introl eq_refl)) as Ql.
  destruct (t =? type ev).
  - specialize (Ql ev s). destruct (l ev s) as [s1 p1]. cbn in Ql. subst s1.
    specialize (IH' s (quiet_cons _ _ _ Q)).
    destruct (invoke ls ev s) as [s2 p2]. exact IH'.
  - apply IH'. eapply quiet_cons, Q.
Qed.

End DispatchFacts.

(** * What one run of an entry operation does *)

Section EntryRuns.

Variable w : World.
Variable key : string.

Lemma cacheEntryDelete_run :
  cacheEntryDelete VCache (VString key) w =
  if hasProperty key (store w) then
    Returned tt
      {| store := fst (invoke (listeners w) (deleteEvent key) (delete key (store w)));
         listeners := listeners w;
         log := log w ++ [{| event := deleteEvent key; seen := delete key (store w) |}];
         devMode := devMode w |}
  else Returned tt w.
Proof.
  unfold cacheEntryDelete, bind, when, getStore, putStore, dispatchEvent, ret.
  cbn. destruct (hasProperty key (store w)); [|reflexivity].
  cbn. fold (deleteEvent key).
  now destruct (invoke (listeners w) (deleteEvent key) (delete key (store w))).
Qed.

Lemma cacheEntryStale_run :
  cacheEntryStale VCache (VString key) w =
  if hasProperty key (store w) then
    Returned tt
      {| store := fst (invoke (listeners w) (staleEvent key) (store w));
         listeners := listeners w;
         log := log w ++ [{| event := staleEvent key; seen := store w |}];
         devMode := devMode w |}
  else Threw (Error ("Cache key `" ++ key ++ "` isn’t in the store.")) w.
Proof.
  unfold cacheEntryStale, bind, when, getStore, dispatchEvent, throw, ret.
  cbn. destruct (hasProperty key (store w)); [|reflexivity].
  cbn. fold (staleEvent key).
  now destruct (invoke (listeners w) (staleEvent key) (store w)).
Qed.

Lemma cacheEntrySet_run (value : Value) :
  cacheEntrySet VCache (VString key) value w =
  Returned tt
    {| store := fst (invoke (listeners w) (setEvent key value)
                       (set key value (store w)));
       listeners := listeners w;
       log := log w ++ [{| event := setEvent key value;
                           seen := set key value (store w) |}];
       devMode := devMode w |}.
Proof.
  unfold cacheEntrySet, bind, when, getStore, putStore, dispatchEvent, ret.
  cbn. fold (setEvent key value).
  now destruct (invoke (listeners w) (setEvent key value) (set key value (store w))).
Qed.

Lemma cacheEntryPrune_run :
  cacheEntryPrune VCache (VString key) w =
  if has key (store w) then
    if vetoed (listeners w) (pruneEvent key) (store w)
    then Returned tt (pruned w key)
    else cacheEntryDelete VCache (VString key) (pruned w key)
  else Returned tt w.
Proof.
  unfold cacheEntryPrune, bind at 1 2 3, when, getStore, dispatchEvent, ret, vetoed.
  cbn. destruct (has key (store w)); [|reflexivity].
  unfold bind, pruned. cbn. fold (pruneEvent key).
  now destruct (invoke (listeners w) (pruneEvent key) (store w)) as [s []].
Qed.

End EntryRuns.

(** * The entry operations *)

Lemma quiet_recorders :
  quiet [("a/set", recorder); ("a/delete", recorder); ("a/stale", recorder);
         ("a/prune", recorder)].
Proof.
  intros t l H ev s. cbn in H.
  repeat (destruct H as [H|H]; [injection H as <- <-; reflexivity|]).
  destruct H.
Defined.

Lemma quiet_preventer : quiet [("a/prune", preventer); ("a/delete", recorder)].
Proof.
  intros t l H ev s. cbn in H.
  repeat (destruct H as [H|H]; [injection H as <- <-; reflexivity|]).
  destruct H.
Defined.

(** C4, on the code.  [cacheEntryDelete] tests [cacheKey in cache.store].
    On a key that is an own property of the store it dispatches exactly
    one event, [<key>/delete], not cancelable; the store the listeners find
    lacks the key and holds every other entry as before, so the write
    precedes the dispatch; and when the listeners write nothing themselves
    that is the store the call leaves.  On a key that is not in the store
    and does not name a property of [Object.prototype] it returns with the
    world as it was: nothing is dispatched.  On a key that is not in the
    store but names a property of [Object.prototype], as [toString] does,
    the test succeeds all the same: the store is left as it was and a
    [<key>/delete] event is dispatched. *)
Theorem cacheEntryDelete_correct (w : World) (key : string) :
  (has key (store w) = true ->
     exists w',
       cacheEntryDelete VCache (VString key) w = Returned tt w'
       /\ log w' = log w ++ [{| event := CustomEvent (key ++ "/delete") false None;
                                seen := delete key (store w) |}]
       /\ has key (delete key (store w)) = false
       /\ (forall k, k <> key -> get k (delete key (store w)) = get k (store w))
       /\ (quiet (listeners w) -> store w' = delete key (store w)))
  /\ (has key (store w) = false -> inherited key = false ->
        cacheEntryDelete VCache (VString key) w = Returned tt w)
  /\ (has key (store w) = false -> inherited key = true ->
        exists w',
          cacheEntryDelete VCache (VString key) w = Returned tt w'
          /\ log w' = log w ++ [{| event := CustomEvent (key ++ "/delete") false None;
                                   seen := store w |}]
          /\ (quiet (listeners w) -> store w' = store w)).
Proof.
  rewrite cacheEntryDelete_run. unfold hasProperty. split; [|split].
  - intros ->. cbn [orb]. eexists. split; [reflexivity|]. cbn.
    repeat split.
    + apply has_delete_same.
    + intros k N. now apply get_delete_other.
    + intros Q. now apply invoke_quiet.
  - now intros -> ->.
  - intros P ->. rewrite P. cbn [orb]. rewrite (delete_absent _ _ P).
    eexists. split; [reflexivity|]. cbn. split; [reflexivity|].
    intros Q. now apply invoke_quiet.
Qed.

Lemma cacheEntryDelete_correct_witness :
  (exists w',
     cacheEntryDelete VCache (VString "a")
       (cacheAB [("a/set", recorder); ("a/delete", recorder);
                 ("a/stale", recorder); ("a/prune", recorder)])
     = Returned tt w'
     /\ store w' = [("b", VNumber 2)]
     /\ types (log w') = ["a/delete"])
  /\ cacheEntryDelete VCache (VString "c") (cacheAB [("c/delete", recorder)])
     = Returned tt (cacheAB [("c/delete", recorder)])
  /\ (exists w',
        cacheEntryDelete VCache (VString "toString")
          (cacheEmpty [("toString/delete", recorder)])
        = Returned tt w'
        /\ store w' = []
        /\ types (log w') = ["toString/delete"]).
Proof.
  split; [|split].
  - destruct (cacheEntryDelete_correct
                (cacheAB [("a/set", recorder); ("a/delete", recorder);
                          ("a/stale", recorder); ("a/prune", recorder)]) "a")
      as (H & _ & _).
    destruct (H eq_refl) as (w' & R & L & _ & _ & S).
    exists w'. split; [exact R|]. split.
    + exact (S quiet_recorders).
    + rewrite L. reflexivity.
  - destruct (cacheEntryDelete_correct (cacheAB [("c/delete", recorder)]) "c")
      as (_ & H & _).
    exact (H eq_refl eq_refl).
  - destruct (cacheEntryDelete_correct
                (cacheEmpty [("toString/delete", recorder)]) "toString")
      as (_ & _ & H).
    destruct (H eq_refl eq_refl) as (w' & R & L & S).
    exists w'. split; [exact R|]. split.
    + apply S. intros t l [I|[]] ev s. now injection I as <- <-.
    + rewrite L. reflexivity.
Defined.

(** C3, on the code.  [cacheEntryStale] tests [cacheKey in cache.store].
    On a key that is an own property of the store it writes nothing: it
    dispatches exactly one event, [<key>/stale], not cancelable, on the
    store as it was, and when the listeners write nothing themselves the
    store is unchanged afterwards.  On a key that is not in the store and
    does not name a property of [Object.prototype] it throws the error
    saying so and leaves the world as it was.  On a key that is not in the
    store but names a property of [Object.prototype], as [constructor]
    does, the test succeeds all the same: nothing is thrown and a
    [<key>/stale] event is dispatched. *)
Theorem cacheEntryStale_correct (w : World) (key : string) :
  (has key (store w) = true ->
     exists w',
       cacheEntryStale VCache (VString key) w = Returned tt w'
       /\ log w' = log w ++ [{| event := CustomEvent (key ++ "/stale") false None;
                                seen := store w |}]
       /\ store w' = fst (invoke (listeners w) (staleEvent key) (store w))
       /\ (quiet (listeners w) -> store w' = store w))
  /\ (has key (store w) = false -> inherited key = false ->
        cacheEntryStale VCache (VString key) w
        = Threw (Error ("Cache key `" ++ key ++ "` isn’t in the store.")) w)
  /\ (has key (store w) = false -> inherited key = true ->
        exists w',
          cacheEntryStale VCache (VString key) w = Returned tt w'
          /\ log w' = log w ++ [{| event := CustomEvent (key ++ "/stale") false None;
                                   seen := store w |}]
          /\ (quiet (listeners w) -> store w' = store w)).
Proof.
  rewrite cacheEntryStale_run. unfold hasProperty. split; [|split].
  - intros ->. cbn [orb]. eexists. split; [reflexivity|]. cbn.
    repeat split. intros Q. now apply invoke_quiet.
  - now intros -> ->.
  - intros P ->. rewrite P. cbn [orb].
    eexists. split; [reflexivity|]. cbn. split; [reflexivity|].
    intros Q. now apply invoke_quiet.
Qed.

Lemma cacheEntryStale_correct_witness :
  (exists w',
     cacheEntryStale VCache (VString "a")
       (cacheAB [("a/set", recorder); ("a/delete", recorder);
                 ("a/stale", recorder); ("a/prune", recorder)])
     = Returned tt w'
     /\ store w' = [("a", VNumber 1); ("b", VNumber 2)]
     /\ types (log w') = ["a/stale"])
  /\ cacheEntryStale VCache (VString "a") (cacheEmpty [("a/stale", recorder)])
     = Threw (Error "Cache key `a` isn’t in the store.")
         (cacheEmpty [("a/stale", recorder)])
  /\ (exists w',
        cacheEntryStale VCache (VString "constructor")
          (cacheEmpty [("constructor/stale", recorder)])
        = Returned tt w'
        /\ store w' = []
        /\ types (log w') = ["constructor/stale"]).
Proof.
  split; [|split].
  - destruct (cacheEntryStale_correct
                (cacheAB [("a/set", recorder); ("a/delete", recorder);
                          ("a/stale", recorder); ("a/prune", recorder)]) "a")
      as (H & _ & _).
    destruct (H eq_refl) as (w' & R & L & _ & S).
    exists w'. split; [exact R|]. split.
    + exact (S quiet_recorders).
    + rewrite L. reflexivity.
  - destruct (cacheEntryStale_correct (cacheEmpty [("a/stale", recorder)]) "a")
      as (_ & H & _).
    exact (H eq_refl eq_refl).
  - destruct (cacheEntryStale_correct
                (cacheEmpty [("constructor/stale", recorder)]) "constructor")
      as (_ & _ & H).
    destruct (H eq_refl eq_refl) as (w' & R & L & S).
    exists w'. split; [exact R|]. split.
    + apply S. intros t l [I|[]] ev s. now injection I as <- <-.
    + rewrite L. reflexivity.
Defined.

(** C5. [cacheEntrySet] with a cache and a string key always returns; it
    dispatches exactly one event, [<key>/set], not cancelable, with the new
    value as its detail; the store the listeners find holds the value at
    the key, whatever was there before, and every other entry as before;
    and when the listeners write nothing themselves, reading the key
    afterwards gives the value. *)
Theorem cacheEntrySet_correct (w : World) (key : string) (value : Value) :
  exists w',
    cacheEntrySet VCache (VString key) value w = Returned tt w'
    /\ log w' = log w ++ [{| event := CustomEvent (key ++ "/set") false (Some value);
                             seen := set key value (store w) |}]
    /\ get key (set key value (store w)) = Some value
    /\ (forall k, k <> key -> get k (set key value (store w)) = get k (store w))
    /\ (quiet (listeners w) -> get key (store w') = Some value).
Proof.
  rewrite cacheEntrySet_run. eexists. split; [reflexivity|]. cbn.
  repeat split.
  - apply get_set_same.
  - intros k N. now apply get_set_other.
  - intros Q. rewrite invoke_quiet by exact Q. apply get_set_same.
Qed.

Lemma cacheEntrySet_correct_witness :
  exists w',
    cacheEntrySet VCache (VString "a") (VNumber 5)
      (cacheAB [("a/set", recorder); ("a/delete", recorder);
                ("a/stale", recorder); ("a/prune", recorder)])
    = Returned tt w'
    /\ get "a" (store w') = Some (VNumber 5)
    /\ map event (log w') = [CustomEvent "a/set" false (Some (VNumber 5))].
Proof.
  pose proof (cacheEntrySet_correct
                (cacheAB [("a/set", recorder); ("a/delete", recorder);
                          ("a/stale", recorder); ("a/prune", recorder)])
                "a" (VNumber 5)) as H.
  cbn in H. destruct H as (w' & R & L & _ & _ & S).
  exists w'. split; [exact R|]. split.
  - exact (S quiet_recorders).
  - rewrite L. reflexivity.
Defined.

(** C2.  [cacheEntryPrune] on a key that is not in the store returns with
    the world as it was: nothing is dispatched.  On a key that is in the
    store it first dispatches a cancelable [<key>/prune] event, on the store
    as it was.  If a listener calls [preventDefault], nothing else is
    dispatched and the operation writes nothing, so the entry remains when
    the listeners write nothing themselves.  Otherwise, with such
    listeners, the key is removed and exactly one [<key>/delete] event, not
    cancelable, follows the prune event, dispatched on the store without
    the key. *)
Theorem cacheEntryPrune_correct (w : World) (key : string) :
  if has key (store w) then
    exists w' rest,
      cacheEntryPrune VCache (VString key) w = Returned tt w'
      /\ log w' = log w ++ {| event := CustomEvent (key ++ "/prune") true None;
                              seen := store w |} :: rest
      /\ if vetoed (listeners w) (pruneEvent key) (store w) then
           rest = []
           /\ store w' = fst (invoke (listeners w) (pruneEvent key) (store w))
           /\ (quiet (listeners w) -> store w' = store w)
         else
           quiet (listeners w) ->
           store w' = delete key (store w)
           /\ rest = [{| event := CustomEvent (key ++ "/delete") false None;
                         seen := delete key (store w) |}]
  else cacheEntryPrune VCache (VString key) w = Returned tt w.
Proof.
  rewrite cacheEntryPrune_run.
  destruct (has key (store w)) eqn:P; [|reflexivity].
  destruct (vetoed (listeners w) (pruneEvent key) (store w)).
  - exists (pruned w key), []. split; [reflexivity|]. split; [reflexivity|].
    split; [reflexivity|]. split; [reflexivity|].
    intros Q. cbn. now apply invoke_quiet.
  - rewrite cacheEntryDelete_run. unfold pruned at 1. cbn [store].
    destruct (hasProperty key
                (fst (invoke (listeners w) (pruneEvent key) (store w))))
      eqn:P1.
    + eexists. eexists. split; [reflexivity|]. cbn [log pruned].
      rewrite <- app_assoc. split; [reflexivity|].
      intros Q. cbn. rewrite !invoke_quiet by exact Q. now split.
    + exists (pruned w key), []. split; [reflexivity|]. split; [reflexivity|].
      intros Q. rewrite invoke_quiet in P1 by exact Q.
      rewrite (hasProperty_has _ _ P) in P1. discriminate.
Qed.

Lemma cacheEntryPrune_correct_witness :
  (exists w',
     cacheEntryPrune VCache (VString "a")
       (cacheAB [("a/prune", preventer); ("a/delete", recorder)])
     = Returned tt w'
     /\ store w' = [("a", VNumber 1); ("b", VNumber 2)]
     /\ types (log w') = ["a/prune"])
  /\ (exists w',
        cacheEntryPrune VCache (VString "a")
          (cacheAB [("a/set", recorder); ("a/delete", recorder);
                    ("a/stale", recorder); ("a/prune", recorder)])
        = Returned tt w'
        /\ store w' = [("b", VNumber 2)]
        /\ types (log w') = ["a/prune"; "a/delete"]).
Proof.
  split.
  - pose proof (cacheEntryPrune_correct
                  (cacheAB [("a/prune", preventer); ("a/delete", recorder)]) "a")
      as H.
    cbn in H. destruct H as (w' & rest & R & L & -> & _ & S).
    exists w'. split; [exact R|]. split; [exact (S quiet_preventer)|].
    rewrite L. reflexivity.
  - pose proof (cacheEntryPrune_correct
                  (cacheAB [("a/set", recorder); ("a/delete", recorder);
                            ("a/stale", recorder); ("a/prune", recorder)]) "a")
      as H.
    cbn in H. destruct H as (w' & rest & R & L & S).
    destruct (S quiet_recorders) as [S1 ->].
    exists w'. split; [exact R|]. split; [exact S1|].
    rewrite L. reflexivity.
Defined.

(** * The bulk operations as walks *)

Section Walks.

Lemma world_eta (w : World) :
  {| store := store w; listeners := listeners w; log := log w ++ [];
     devMode := devMode w |} = w.
Proof. destruct w; cbn. now rewrite app_nil_r. Qed.

Lemma cacheEntryDelete_regular : regular cacheEntryDelete.
Proof.
  intros w k P. unfold effect. rewrite !cacheEntryDelete_run. cbn.
  now rewrite (hasProperty_has _ _ P).
Qed.

Lemma cacheEntryStale_regular : regular cacheEntryStale.
Proof.
  intros w k P. unfold effect. rewrite !cacheEntryStale_run. cbn.
  now rewrite (hasProperty_has _ _ P).
Qed.


Lemma cacheEntryPrune_regular : regular cacheEntryPrune.
Proof.
  intros w k P. unfold effect. rewrite !cacheEntryPrune_run.
  cbn [store listeners log devMode]. rewrite P.
  destruct (vetoed (listeners w) (pruneEvent k) (store w)); [reflexivity|].
  rewrite !cacheEntryDelete_run. unfold pruned.
  cbn [store listeners log devMode].
  destruct (hasProperty k (fst (invoke (listeners w) (pruneEvent k) (store w)))).
  - cbn. now rewrite <- app_assoc.
  - reflexivity.
Qed.

Lemma forInKeys_walk (op : Value -> Value -> M unit) (matcher : Value) :
  regular op ->
  forall ks w,
    forInKeys ks (fun k => if matches matcher k then op VCache (VString k)
                           else ret tt) w
    = Returned tt
        {| store := fst (walk (visitOf op matcher (listeners w) (devMode w)) ks
                           (store w));
           listeners := listeners w;
           log := log w ++ snd (walk (visitOf op matcher (listeners w) (devMode w))
                                  ks (store w));
           devMode := devMode w |}.
Proof.
  intros R. induction ks as [|k rest IH]; intros w.
  - cbn. unfold ret. now rewrite world_eta.
  - cbn [forInKeys walk]. unfold bind at 1 2, getStore.
    destruct (has k (store w)) eqn:P.
    + unfold visitOf at 1 3. destruct (matches matcher k).
      * rewrite (R w k P), IH. cbn [store listeners log devMode].
        destruct (effect (op VCache (VString k)) (listeners w) (devMode w) (store w))
          as [s1 d1]. cbn [fst snd].
        destruct (walk (visitOf op matcher (listeners w) (devMode w)) rest s1)
          as [s2 d2]. cbn [fst snd]. now rewrite app_assoc.
      * unfold ret at 1. rewrite IH.
        destruct (walk (visitOf op matcher (listeners w) (devMode w)) rest (store w))
          as [s2 d2]. reflexivity.
    + unfold ret at 1. now rewrite IH.
Qed.

Lemma walk_ext (v1 v2 : string -> Obj -> Obj * list Dispatch) :
  (forall k s, has k s = true -> v1 k s = v2 k s) ->
  forall ks s, walk v1 ks s = walk v2 ks s.
Proof.
  intros E. induction ks as [|k rest IH]; intros s; cbn; [reflexivity|].
  destruct (has k s) eqn:P; [|apply IH].
  rewrite (E k s P). destruct (v2 k s) as [s1 d1]. now rewrite IH.
Qed.

End Walks.

(** * Facts about walks *)

Section WalkFacts.

Variable visit : string -> Obj -> Obj * list Dispatch.

Lemma subseq_In {A : Type} (l1 l2 : list A) :
  subseq l1 l2 -> forall x, In x l1 -> In x l2.
Proof.
  induction 1; intros y H0; cbn in *; [assumption| |]; intuition auto.
Qed.

Lemma subseq_NoDup {A : Type} (l1 l2 : list A) :
  subseq l1 l2 -> NoDup l2 -> NoDup l1.
Proof.
  induction 1; intros N; [assumption| |].
  - inversion N; subst. now apply IHsubseq.
  - inversion N; subst. constructor; [|now apply IHsubseq].
    intros I. apply H2. eapply subseq_In; eassumption.
Qed.

Lemma subseq_filter {A : Type} (f : A -> bool) (l : list A) :
  subseq (filter f l) l.
Proof.
  induction l as [|x l IH]; cbn; [constructor|].
  destruct (f x); constructor; assumption.
Qed.

Section Marks.

Variable marks : list Dispatch -> list string.
Variable m : string -> bool.
Variable tag : string -> string.

Hypothesis marks_app : forall a b, marks (a ++ b) = marks a ++ marks b.
Hypothesis marks_visit :
  forall k s, has k s = true ->
    marks (snd (visit k s)) = if m k then [tag k] else [].

Lemma marks_nil : marks [] = [].
Proof.
  pose proof (marks_app [] []) as H. cbn in H.
  destruct (marks []) as [|x l]; [reflexivity|].
  apply (f_equal (@List.length _)) in H. rewrite length_app in H. cbn in H. lia.
Qed.

(** The log shows the keys visited, in the order visited. *)
Lemma walk_marks (ks : list string) :
  forall s, marks (snd (walk visit ks s)) = map tag (visited visit m ks s).
Proof.
  induction ks as [|k rest IH]; intros s; cbn.
  - apply marks_nil.
  - destruct (has k s) eqn:P; [|apply IH].
    pose proof (marks_visit k s P) as V. specialize (IH (fst (visit k s))).
    destruct (visit k s) as [s1 d1]. cbn in *.
    destruct (walk visit rest s1) as [s2 d2]. cbn in *.
    rewrite marks_app, V, IH. now destruct (m k).
Qed.

(** The keys visited are among those listed, in the order listed. *)
Lemma visited_subseq (ks : list string) :
  forall s, subseq (visited visit m ks s) (filter m ks).
Proof.
  induction ks as [|k rest IH]; intros s; cbn; [constructor|].
  destruct (has k s), (m k); try constructor; apply IH.
Qed.

Hypothesis visit_others :
  forall k s j, has k s = true -> j <> k -> has j (fst (visit k s)) = has j s.

(** When a visit leaves the other keys in place, every key listed is
    visited. *)
Lemma visited_all (ks : list string) :
  NoDup ks ->
  forall s, (forall k, In k ks -> has k s = true) ->
    visited visit m ks s = filter m ks.
Proof.
  induction 1 as [|k rest NI ND IH]; intros s A; cbn; [reflexivity|].
  rewrite (A k (or_introl eq_refl)).
  rewrite IH; [reflexivity|].
  intros j I. rewrite visit_others.
  - apply A. now right.
  - apply A. now left.
  - intros ->. contradiction.
Qed.

End Marks.

Lemma among_In (k : string) (ks : list string) :
  among k ks = true <-> In k ks.
Proof.
  unfold among. rewrite existsb_exists. split.
  - intros (x & I & E). apply String.eqb_eq in E. now subst.
  - intros I. exists k. split; [assumption | apply String.eqb_refl].
Qed.

Variable d : string -> bool.

Hypothesis visit_store :
  forall k s, has k s = true -> fst (visit k s) = if d k then delete k s else s.

(** When a visit either deletes its key or leaves the store alone, the walk
    deletes the keys listed that [d] selects. *)
Lemma walk_get (ks : list string) :
  forall s j,
    get j (fst (walk visit ks s)) = if d j && among j ks then None else get j s.
Proof.
  induction ks as [|k rest IH]; intros s j; cbn.
  - now rewrite andb_false_r.
  - destruct (has k s) eqn:P.
    + pose proof (visit_store k s P) as V.
      destruct (visit k s) as [s1 d1]. cbn in V. subst s1.
      specialize (IH (if d k then delete k s else s) j).
      destruct (walk visit rest (if d k then delete k s else s)) as [s2 d2].
      cbn in *. rewrite IH.
      destruct (j =? k) eqn:E.
      * apply String.eqb_eq in E. subst j. cbn. rewrite andb_true_r.
        destruct (d k); cbn; [|reflexivity].
        rewrite get_delete_same. now destruct (among k rest).
      * cbn. apply String.eqb_neq in E.
        destruct (d k); [|reflexivity]. now rewrite get_delete_other.
    + rewrite IH. destruct (j =? k) eqn:E; cbn; [|reflexivity].
      apply String.eqb_eq in E. subst j.
      rewrite (has_false_get k s P). now destruct (d k && among k rest), (d k).
Qed.

End WalkFacts.

(** * Facts about the enumeration order *)

Section OwnKeys.

Lemma insertIndex_perm (n : N) (k : string) (l : list (N * string)) :
  Permutation (map snd (insertIndex n k l)) (k :: map snd l).
Proof.
  induction l as [|[i j] l IH]; cbn; [reflexivity|].
  destruct (n <=? i)%N; cbn; [reflexivity|].
  rewrite IH. apply perm_swap.
Qed.

Lemma ownKeys_perm (o : Obj) : Permutation (ownKeys o) (map fst o).
Proof.
  unfold ownKeys. induction (map fst o) as [|k ks IH]; cbn; [reflexivity|].
  unfold isArrayIndex at 1. destruct (arrayIndex k) as [n|]; cbn.
  - rewrite insertIndex_perm. cbn. now apply perm_skip.
  - rewrite <- Permutation_middle. now apply perm_skip.
Qed.

Lemma ownKeys_has (o : Obj) (k : string) : In k (ownKeys o) <-> has k o = true.
Proof.
  rewrite has_In. split; apply Permutation_in;
    [apply ownKeys_perm | apply Permutation_sym, ownKeys_perm].
Qed.

Lemma ownKeys_NoDup (o : Obj) : NoDup (map fst o) -> NoDup (ownKeys o).
Proof. apply Permutation_NoDup, Permutation_sym, ownKeys_perm. Qed.

(** Without array indices among the keys, the order is insertion order. *)
Lemma ownKeys_insertion_order (o : Obj) :
  forallb (fun k => negb (isArrayIndex k)) (map fst o) = true ->
  ownKeys o = map fst o.
Proof.
  unfold ownKeys. intros H.
  assert (E : indexKeys (map fst o) = []
              /\ filter (fun k => negb (isArrayIndex k)) (map fst o) = map fst o).
  { induction (map fst o) as [|k ks IH]; cbn; [split; reflexivity|].
    cbn in H. apply andb_true_iff in H as [K H].
    destruct (IH H) as [I F]. rewrite K, F. unfold isArrayIndex in K.
    destruct (arrayIndex k); [discriminate|]. split; [assumption|reflexivity]. }
  destruct E as [-> ->]. reflexivity.
Qed.

Lemma get_In (o : Obj) (k : string) (v : Value) :
  get k o = Some v -> In (k, v) o.
Proof.
  induction o as [|[j u] o IH]; cbn; [discriminate|].
  destruct (j =? k) eqn:E.
  - apply String.eqb_eq in E. intros [= ->]. left. now subst.
  - intros H. right. now apply IH.
Qed.

Lemma In_get (o : Obj) (k : string) (v : Value) :
  NoDup (map fst o) -> In (k, v) o -> get k o = Some v.
Proof.
  induction o as [|[j u] o IH]; cbn; [contradiction|].
  intros N [H|H]; inversion N as [|? ? NI ND]; subst.
  - injection H as -> ->. now rewrite String.eqb_refl.
  - destruct (j =? k) eqn:E; [|now apply IH].
    apply String.eqb_eq in E. subst j. exfalso. apply NI.
    change k with (fst (k, v)). now apply in_map.
Qed.

(** Stores with the same entries in different orders read the same. *)
Lemma perm_sameEntries (s1 s2 : Obj) :
  NoDup (map fst s1) -> Permutation s1 s2 -> sameEntries s1 s2.
Proof.
  intros N P k.
  assert (N2 : NoDup (map fst s2)).
  { eapply Permutation_NoDup; [|exact N]. now apply Permutation_map. }
  destruct (get k s1) as [v|] eqn:E1.
  - symmetry. apply In_get; [assumption|].
    eapply Permutation_in; [exact P|]. now apply get_In.
  - destruct (get k s2) as [v|] eqn:E2; [|reflexivity].
    apply get_In in E2. apply Permutation_sym in P.
    apply (Permutation_in _ P), (In_get _ _ _ N) in E2. congruence.
Qed.

End OwnKeys.

(** * One visit, when the listeners only observe *)

Section QuietVisits.

Variable ls : list (string * Listener).
Variable matcher : Value.
Variable dev : bool.

Lemma vetoed_observers (ev : Event) (s : Obj) :
  observers ls -> vetoed ls ev s = vetoOf ls ev.
Proof.
  unfold vetoOf, vetoed. generalize (@nil (string * Value)). revert s.
  induction ls as [|[t l] rest IH]; intros s s0 O; cbn; [reflexivity|].
  assert (O' : observers rest) by (intros u h H; apply (O u h); now right).
  destruct (t =? type ev); [|now apply IH].
  destruct (O t l (or_introl eq_refl)) as [veto E]. rewrite !E.
  specialize (IH s s0 O').
  destruct (invoke rest ev s), (invoke rest ev s0). cbn in *. now rewrite IH.
Qed.

Hypothesis Q : quiet ls.

Lemma delete_visit_quiet (k : string) (s : Obj) :
  has k s = true ->
  visitOf cacheEntryDelete matcher ls dev k s = deleteQuietly matcher k s.
Proof.
  intros P. unfold visitOf, deleteQuietly, effect.
  destruct (matches matcher k); [|reflexivity].
  rewrite cacheEntryDelete_run. cbn [store listeners].
  rewrite (hasProperty_has _ _ P). cbn.
  now rewrite invoke_quiet.
Qed.

Lemma stale_visit_quiet (k : string) (s : Obj) :
  has k s = true ->
  visitOf cacheEntryStale matcher ls dev k s = staleQuietly matcher k s.
Proof.
  intros P. unfold visitOf, staleQuietly, effect.
  destruct (matches matcher k); [|reflexivity].
  rewrite cacheEntryStale_run. cbn [store listeners].
  rewrite (hasProperty_has _ _ P). cbn.
  now rewrite invoke_quiet.
Qed.

Lemma prune_visit_quiet (k : string) (s : Obj) :
  has k s = true ->
  visitOf cacheEntryPrune matcher ls dev k s
  = pruneQuietly (fun ev => vetoed ls ev s) matcher k s.
Proof.
  intros P. unfold visitOf, pruneQuietly, effect.
  destruct (matches matcher k); [|reflexivity].
  rewrite cacheEntryPrune_run. cbn [store listeners]. rewrite P.
  destruct (vetoed ls (pruneEvent k) s).
  - cbn. now rewrite invoke_quiet.
  - rewrite cacheEntryDelete_run. unfold pruned. cbn [store listeners log devMode].
    rewrite !invoke_quiet by exact Q. rewrite (hasProperty_has _ _ P).
    cbn. reflexivity.
Qed.

End QuietVisits.

(** * The bulk operations are walks of the keys listed at the start *)

Section BulkRuns.

Variable m : option (string -> bool).
Variable w : World.

Lemma cacheDelete_walk :
  cacheDelete VCache (matcherArg m) w
  = Returned tt
      (walked (visitOf cacheEntryDelete (matcherArg m) (listeners w) (devMode w)) w).
Proof.
  unfold cacheDelete, forIn, bind at 1 2 3, getStore.
  destruct m; cbn [matcherArg instanceofCache isUndefined typeof negb andb when
                   String.eqb Ascii.eqb Bool.eqb ret];
    apply (forInKeys_walk _ _ cacheEntryDelete_regular).
Qed.

Lemma cacheStale_walk :
  cacheStale VCache (matcherArg m) w
  = Returned tt
      (walked (visitOf cacheEntryStale (matcherArg m) (listeners w) (devMode w)) w).
Proof.
  unfold cacheStale, forIn, bind at 1 2 3, getStore.
  destruct m; cbn [matcherArg instanceofCache isUndefined typeof negb andb when
                   String.eqb Ascii.eqb Bool.eqb ret];
    apply (forInKeys_walk _ _ cacheEntryStale_regular).
Qed.

Lemma cachePrune_walk :
  cachePrune VCache (matcherArg m) w
  = Returned tt
      (walked (visitOf cacheEntryPrune (matcherArg m) (listeners w) (devMode w)) w).
Proof.
  unfold cachePrune, forIn, bind at 1 2 3, getStore.
  destruct m; cbn [matcherArg instanceofCache isUndefined typeof negb andb when
                   String.eqb Ascii.eqb Bool.eqb ret];
    apply (forInKeys_walk _ _ cacheEntryPrune_regular).
Qed.

End BulkRuns.

(** * What the log shows of one visit *)

Section VisitMarks.

Variable ls : list (string * Listener).
Variable matcher : Value.
Variable dev : bool.

Lemma types_app (a b : list Dispatch) : types (a ++ b) = types a ++ types b.
Proof. apply map_app. Qed.

Lemma pruneMarks_app (a b : list Dispatch) :
  pruneMarks (a ++ b) = pruneMarks a ++ pruneMarks b.
Proof. unfold pruneMarks, cancelables. now rewrite filter_app, types_app. Qed.

Lemma delete_visit_marks (k : string) (s : Obj) :
  has k s = true ->
  types (snd (visitOf cacheEntryDelete matcher ls dev k s))
  = if matches matcher k then [(k ++ "/delete")%string] else [].
Proof.
  intros P. unfold visitOf, effect. destruct (matches matcher k); [|reflexivity].
  rewrite cacheEntryDelete_run. cbn [store].
  now rewrite (hasProperty_has _ _ P).
Qed.

Lemma stale_visit_marks (k : string) (s : Obj) :
  has k s = true ->
  types (snd (visitOf cacheEntryStale matcher ls dev k s))
  = if matches matcher k then [(k ++ "/stale")%string] else [].
Proof.
  intros P. unfold visitOf, effect. destruct (matches matcher k); [|reflexivity].
  rewrite cacheEntryStale_run. cbn [store].
  now rewrite (hasProperty_has _ _ P).
Qed.

Lemma prune_visit_marks (k : string) (s : Obj) :
  has k s = true ->
  pruneMarks (snd (visitOf cacheEntryPrune matcher ls dev k s))
  = if matches matcher k then [(k ++ "/prune")%string] else [].
Proof.
  intros P. unfold visitOf, effect. destruct (matches matcher k); [|reflexivity].
  rewrite cacheEntryPrune_run. cbn [store listeners]. rewrite P.
  destruct (vetoed ls (pruneEvent k) s); [reflexivity|].
  rewrite cacheEntryDelete_run. unfold pruned. cbn [store listeners log devMode].
  now destruct (hasProperty k (fst (invoke ls (pruneEvent k) s))).
Qed.

Hypothesis Q : quiet ls.

Lemma delete_visit_others (k : string) (s : Obj) (j : string) :
  has k s = true -> j <> k ->
  has j (fst (visitOf cacheEntryDelete matcher ls dev k s)) = has j s.
Proof.
  intros P N. rewrite delete_visit_quiet by assumption. unfold deleteQuietly.
  destruct (matches matcher k); [|reflexivity]. now apply has_delete_other.
Qed.

Lemma stale_visit_others (k : string) (s : Obj) (j : string) :
  has k s = true -> j <> k ->
  has j (fst (visitOf cacheEntryStale matcher ls dev k s)) = has j s.
Proof.
  intros P N. rewrite stale_visit_quiet by assumption. unfold staleQuietly.
  now destruct (matches matcher k).
Qed.

Lemma prune_visit_others (k : string) (s : Obj) (j : string) :
  has k s = true -> j <> k ->
  has j (fst (visitOf cacheEntryPrune matcher ls dev k s)) = has j s.
Proof.
  intros P N. rewrite prune_visit_quiet by assumption. unfold pruneQuietly.
  destruct (matches matcher k); [|reflexivity].
  destruct (vetoed ls (pruneEvent k) s); [reflexivity|].
  now apply has_delete_other.
Qed.

End VisitMarks.

Section Processes.

Variable bulk entry : Value -> Value -> M unit.
Variable marks : list Dispatch -> list string.
Variable suffix : string.
Variable m : option (string -> bool).
Variable w : World.

Let visit : string -> Obj -> Obj * list Dispatch :=
  visitOf entry (matcherArg m) (listeners w) (devMode w).

Hypothesis bulk_walk : bulk VCache (matcherArg m) w = Returned tt (walked visit w).
Hypothesis marks_app : forall a b, marks (a ++ b) = marks a ++ marks b.
Hypothesis marks_visit :
  forall k s, has k s = true ->
    marks (snd (visit k s))
    = if matches (matcherArg m) k then [(k ++ suffix)%string] else [].
Hypothesis visit_others :
  quiet (listeners w) ->
  forall k s j, has k s = true -> j <> k -> has j (fst (visit k s)) = has j s.
Hypothesis unique : NoDup (map fst (store w)).

Lemma walked_processes : processes bulk entry marks suffix m w.
Proof.
  exists (walked visit w), (snd (walk visit (ownKeys (store w)) (store w))),
    (visited visit (matches (matcherArg m)) (ownKeys (store w)) (store w)).
  split; [exact bulk_walk|]. split; [reflexivity|].
  split; [|split; [reflexivity|split; [|split]]].
  - apply (walk_marks visit marks (matches (matcherArg m))
             (fun k => (k ++ suffix)%string) marks_app marks_visit).
  - apply visited_subseq.
  - eapply subseq_NoDup; [apply visited_subseq|].
    eapply subseq_NoDup; [apply subseq_filter|]. now apply ownKeys_NoDup.
  - intros Q. apply visited_all.
    + now apply visit_others.
    + now apply ownKeys_NoDup.
    + intros k. apply ownKeys_has.
Qed.

End Processes.

Section FinalStore.

Variable visit : string -> Obj -> Obj * list Dispatch.
Variable d : string -> bool.

Hypothesis visit_store :
  forall k s, has k s = true -> fst (visit k s) = if d k then delete k s else s.

Lemma walked_get (w : World) (j : string) :
  get j (store (walked visit w)) = if d j then None else get j (store w).
Proof.
  unfold walked. cbn [store]. rewrite (walk_get visit d visit_store).
  destruct (d j); [|reflexivity]. cbn.
  destruct (among j (ownKeys (store w))) eqn:E; [reflexivity|].
  apply has_false_get.
  destruct (has j (store w)) eqn:P; [|reflexivity].
  apply ownKeys_has, among_In in P. congruence.
Qed.

End FinalStore.

(** * The bulk operations *)

Lemma unique_AB : NoDup (map fst (store (cacheAB []))).
Proof.
  cbn. repeat constructor; cbn; intuition discriminate.
Defined.

Lemma quiet_deleteRecorders : quiet deleteRecorders.
Proof.
  intros t l H ev s. cbn in H.
  repeat (destruct H as [H|H]; [injection H as <- <-; reflexivity|]).
  destruct H.
Defined.

(** C6, as the code has it.  On a store with distinct keys, each of
    [cacheDelete], [cacheStale] and [cachePrune] returns, whatever the
    listeners do to the store.  The keys are listed once, when the loop
    starts, and taken in that order; a listed key is processed exactly when
    it matches and is still in the store when its turn comes, on the store
    the turns before it left, and a key that is gone by then is passed over
    and the loop goes on with the next one.  So the keys processed, read
    off the events dispatched, are matching keys of that list, in its
    order and none twice, a key added during the run is never processed,
    and when the listeners write nothing every matching key of the list is
    processed. *)
Theorem bulk_processes_listed_keys (m : option (string -> bool)) (w : World) :
  NoDup (map fst (store w)) ->
  processes cacheDelete cacheEntryDelete types "/delete" m w
  /\ processes cacheStale cacheEntryStale types "/stale" m w
  /\ processes cachePrune cacheEntryPrune pruneMarks "/prune" m w.
Proof.
  intros U. split; [|split].
  - apply (walked_processes _ _ _ _ _ _ (cacheDelete_walk m w) types_app).
    + apply delete_visit_marks.
    + intros Q k s j. now apply delete_visit_others.
    + exact U.
  - apply (walked_processes _ _ _ _ _ _ (cacheStale_walk m w) types_app).
    + apply stale_visit_marks.
    + intros Q k s j. now apply stale_visit_others.
    + exact U.
  - apply (walked_processes _ _ _ _ _ _ (cachePrune_walk m w) pruneMarks_app).
    + apply prune_visit_marks.
    + intros Q k s j. now apply prune_visit_others.
    + exact U.
Qed.

(** On [{a: 1, b: 2, c: 3}] with a listener of [a/stale] that removes [b]:
    [b] is passed over and the loop goes on to [c]. *)
Lemma bulk_processes_listed_keys_witness :
  NoDup (map fst (store cacheMeddledABC))
  /\ (exists w',
        cacheStale VCache VUndefined cacheMeddledABC = Returned tt w'
        /\ types (log w') = ["a/stale"; "c/stale"])
  /\ (exists w',
        cacheDelete VCache VUndefined cacheMeddledABC = Returned tt w'
        /\ types (log w') = ["a/delete"; "b/delete"; "c/delete"]).
Proof.
  assert (U : NoDup (map fst (store cacheMeddledABC))).
  { cbn. repeat constructor; cbn; intuition discriminate. }
  split; [exact U|].
  destruct (bulk_processes_listed_keys None cacheMeddledABC U)
    as ((wd & newd & ksd & Rd & Ld & Md & Ed & _)
        & (ws & news & kss & Rs & Ls & Ms & Es & _) & _).
  split.
  - exists ws. split; [exact Rs|].
    rewrite Ls, types_app, Ms, Es. reflexivity.
  - exists wd. split; [exact Rd|].
    rewrite Ld, types_app, Md, Ed. reflexivity.
Defined.

(** C6, as stated, fails.  The store holds [a] and [b], both matching when
    [cacheStale] is called, and the listener of [a/stale] removes [b]: the
    run dispatches [a/stale] only, so [b] is skipped. *)
Lemma cacheStale_skips_removed_key :
  filter (matches VUndefined) (map fst (store cacheMeddled)) = ["a"; "b"]
  /\ exists w',
       cacheStale VCache VUndefined cacheMeddled = Returned tt w'
       /\ types (log w') = ["a/stale"]
       /\ ~ In "b/stale" (types (log w')).
Proof.
  split; [reflexivity|]. eexists. split; [reflexivity|].
  split; [reflexivity|]. cbn. intros [H|[]]. discriminate.
Qed.

(** The order of the list is not always insertion order: keys that are array
    indices come first. *)
Lemma cacheDelete_index_keys_first :
  exists w',
    cacheDelete VCache VUndefined
      {| store := [("b", VNumber 1); ("1", VNumber 2)];
         listeners := []; log := []; devMode := true |}
    = Returned tt w'
    /\ types (log w') = ["1/delete"; "b/delete"].
Proof. eexists. split; reflexivity. Qed.

(** C7.  With listeners that write nothing themselves: on the store
    [{a: 1, b: 2}], [cacheDelete] without a matcher leaves the store empty
    and dispatches two delete events, for [a] then [b]; on
    [{a: 1, b: 2, c: 3}] with the matcher [k => k !== 'b'] it leaves
    [{b: 2}] and dispatches delete events for [a] then [c] only. *)
Theorem cacheDelete_scenarios (ls : list (string * Listener)) (dev : bool) :
  quiet ls ->
  (exists w',
     cacheDelete VCache VUndefined (cacheOfAB ls dev) = Returned tt w'
     /\ store w' = []
     /\ map event (log w') = [CustomEvent "a/delete" false None;
                              CustomEvent "b/delete" false None])
  /\ (exists w',
        cacheDelete VCache (VFunction notB) (cacheOfABC ls dev) = Returned tt w'
        /\ store w' = [("b", VNumber 2)]
        /\ map event (log w') = [CustomEvent "a/delete" false None;
                                 CustomEvent "c/delete" false None]).
Proof.
  intros Q. split.
  - rewrite (cacheDelete_walk None). eexists. split; [reflexivity|].
    unfold walked. cbn [store log listeners devMode cacheOfAB].
    rewrite (walk_ext _ (deleteQuietly (matcherArg None)))
      by (intros k s P; now apply delete_visit_quiet).
    split; reflexivity.
  - rewrite (cacheDelete_walk (Some notB)). eexists. split; [reflexivity|].
    unfold walked. cbn [store log listeners devMode cacheOfABC].
    rewrite (walk_ext _ (deleteQuietly (matcherArg (Some notB))))
      by (intros k s P; now apply delete_visit_quiet).
    split; reflexivity.
Qed.

Lemma cacheDelete_scenarios_witness :
  (exists w',
     cacheDelete VCache VUndefined (cacheOfAB deleteRecorders true) = Returned tt w'
     /\ store w' = []
     /\ map event (log w') = [CustomEvent "a/delete" false None;
                              CustomEvent "b/delete" false None])
  /\ (exists w',
        cacheDelete VCache (VFunction notB) (cacheOfABC deleteRecorders true)
        = Returned tt w'
        /\ store w' = [("b", VNumber 2)]
        /\ map event (log w') = [CustomEvent "a/delete" false None;
                                 CustomEvent "c/delete" false None]).
Proof.
  exact (cacheDelete_scenarios deleteRecorders true quiet_deleteRecorders).
Defined.

(** * The final store of a bulk operation *)

Section VisitStores.

Variable ls : list (string * Listener).
Variable matcher : Value.
Variable dev : bool.

Hypothesis Q : quiet ls.

Lemma delete_visit_store (k : string) (s : Obj) :
  has k s = true ->
  fst (visitOf cacheEntryDelete matcher ls dev k s)
  = if matches matcher k then delete k s else s.
Proof.
  intros P. rewrite delete_visit_quiet by assumption. unfold deleteQuietly.
  now destruct (matches matcher k).
Qed.

Lemma stale_visit_store (k : string) (s : Obj) :
  has k s = true ->
  fst (visitOf cacheEntryStale matcher ls dev k s)
  = if false then delete k s else s.
Proof.
  intros P. rewrite stale_visit_quiet by assumption. unfold staleQuietly.
  now destruct (matches matcher k).
Qed.

Hypothesis O : observers ls.

Lemma prune_visit_store (k : string) (s : Obj) :
  has k s = true ->
  fst (visitOf cacheEntryPrune matcher ls dev k s)
  = if matches matcher k && negb (vetoOf ls (pruneEvent k))
    then delete k s else s.
Proof.
  intros P. rewrite prune_visit_quiet by assumption. unfold pruneQuietly.
  rewrite vetoed_observers by assumption.
  now destruct (matches matcher k), (vetoOf ls (pruneEvent k)).
Qed.

End VisitStores.

Lemma Permutation_filter {A : Type} (f : A -> bool) (l1 l2 : list A) :
  Permutation l1 l2 -> Permutation (filter f l1) (filter f l2).
Proof.
  induction 1 as [|x l1 l2 P IH|x y l|l1 l2 l3 P1 IH1 P2 IH2]; cbn.
  - constructor.
  - destruct (f x); [now constructor | assumption].
  - destruct (f x), (f y); try reflexivity. apply perm_swap.
  - now transitivity (filter f l2).
Qed.

Section OrderIndependence.

Variable op : Value -> Value -> M unit.
Variable marks : list Dispatch -> list string.
Variable suffix : string.
Variable f : string -> bool.
Variable ls : list (string * Listener).
Variable dev : bool.
Variable visit : string -> Obj -> Obj * list Dispatch.
Variable d : string -> bool.

Hypothesis op_walk :
  forall s l,
    op VCache (VFunction f)
      {| store := s; listeners := ls; log := l; devMode := dev |}
    = Returned tt
        (walked visit {| store := s; listeners := ls; log := l; devMode := dev |}).
Hypothesis visit_store :
  forall k s, has k s = true -> fst (visit k s) = if d k then delete k s else s.
Hypothesis d_matches : forall k, f k = false -> d k = false.
Hypothesis marks_app : forall a b, marks (a ++ b) = marks a ++ marks b.
Hypothesis marks_visit :
  forall k s, has k s = true ->
    marks (snd (visit k s)) = if f k then [(k ++ suffix)%string] else [].

Lemma walked_marks (s : Obj) :
  NoDup (map fst s) ->
  marks (snd (walk visit (ownKeys s) s))
  = map (fun k => (k ++ suffix)%string) (filter f (ownKeys s)).
Proof.
  intros U.
  rewrite (walk_marks visit marks f (fun k => (k ++ suffix)%string)
             marks_app marks_visit).
  f_equal. apply visited_all.
  - intros k s0 j P N. rewrite (visit_store k s0 P).
    destruct (d k); [now apply has_delete_other | reflexivity].
  - now apply ownKeys_NoDup.
  - intros k. apply ownKeys_has.
Qed.

Lemma walked_orderIndependent (l1 l2 : list Dispatch) (s1 s2 : Obj) :
  NoDup (map fst s1) -> Permutation s1 s2 ->
  orderIndependent op marks suffix d f ls dev l1 l2 s1 s2.
Proof.
  intros U P. pose proof (perm_sameEntries s1 s2 U P) as E.
  assert (U2 : NoDup (map fst s2)).
  { eapply Permutation_NoDup; [|exact U]. now apply Permutation_map. }
  eexists. eexists. eexists. eexists.
  split; [apply op_walk|]. split; [apply op_walk|].
  split; [reflexivity|]. split; [reflexivity|]. cbn [walked store log].
  assert (G : forall s k,
             get k (fst (walk visit (ownKeys s) s))
             = if d k then None else get k s).
  { intros s k.
    exact (walked_get visit d visit_store
             {| store := s; listeners := ls; log := []; devMode := dev |} k). }
  split; [apply G|]. split; [apply G|]. split.
  { intros k D. destruct (f k) eqn:F; [reflexivity|].
    rewrite (d_matches k F) in D. discriminate. }
  split.
  { intros k. rewrite !G. now rewrite (E k). }
  split.
  { intros k F. rewrite !G. now rewrite (d_matches k F). }
  rewrite !walked_marks by assumption.
  split; [reflexivity|]. split; [reflexivity|].
  apply Permutation_map, Permutation_filter.
  rewrite !ownKeys_perm. now apply Permutation_map.
Qed.

End OrderIndependence.

Lemma observers_keepA : observers keepA.
Proof.
  intros t l H. cbn in H.
  destruct H as [H|[H|[H|[]]]]; injection H as <- <-.
  - exists (fun _ => true). reflexivity.
  - exists (fun _ => false). reflexivity.
  - exists (fun _ => false). reflexivity.
Defined.

Lemma unique_ABC : NoDup (map fst storeABC).
Proof.
  cbn. repeat constructor; cbn; intuition discriminate.
Defined.

Lemma perm_ABC_CAB : Permutation storeABC storeCAB.
Proof.
  unfold storeABC, storeCAB.
  apply Permutation_sym.
  apply (Permutation_cons_app [("a", VNumber 1); ("b", VNumber 2)] []).
  reflexivity.
Defined.




(** * Argument checks *)

(** C9.  Each of [cacheEntryDelete], [cacheEntryStale], [cacheDelete],
    [cacheStale] and [cachePrune], called with an argument of the wrong
    type (a first argument that is not a [Cache], a cache key that is not a
    string, a matcher that is neither undefined nor a function), throws a
    [TypeError] and leaves the world exactly as it was: same store, no
    event dispatched. *)
Theorem invalid_arguments_fail_fast (w : World) (cache arg : Value) :
  (entryArgs cache arg = false ->
     failsFast (cacheEntryDelete cache arg w) w
     /\ failsFast (cacheEntryStale cache arg w) w)
  /\ (bulkArgs cache arg = false ->
        failsFast (cacheDelete cache arg w) w
        /\ failsFast (cacheStale cache arg w) w
        /\ failsFast (cachePrune cache arg w) w).
Proof.
  unfold entryArgs, bulkArgs, failsFast. split; intros H.
  - destruct cache; cbn in H;
      try (split; eexists; reflexivity);
      destruct arg; cbn in H; try discriminate;
      split; eexists; reflexivity.
  - destruct cache; cbn in H;
      try (repeat split; eexists; reflexivity);
      destruct arg; cbn in H; try discriminate;
      repeat split; eexists; reflexivity.
Qed.

Lemma invalid_arguments_fail_fast_witness :
  (failsFast (cacheEntryDelete VCache (VBool true) (cacheAB [])) (cacheAB [])
   /\ failsFast (cacheEntryStale VCache (VBool true) (cacheAB [])) (cacheAB []))
  /\ (failsFast (cacheDelete VCache (VBool true) (cacheAB [])) (cacheAB [])
      /\ failsFast (cacheStale VCache (VBool true) (cacheAB [])) (cacheAB [])
      /\ failsFast (cachePrune VCache (VBool true) (cacheAB [])) (cacheAB [])).
Proof.
  destruct (invalid_arguments_fail_fast (cacheAB []) VCache (VBool true))
    as [E B].
  split; [apply E | apply B]; reflexivity.
Defined.

(** The messages, in a production environment and outside one. *)
Example cacheDelete_messages :
  cacheDelete (VBool true) VUndefined (cacheAB [])
  = Threw (TypeError "Argument 1 `cache` must be a `Cache` instance.") (cacheAB [])
  /\ cacheDelete VCache VNull
       {| store := []; listeners := []; log := []; devMode := false |}
     = Threw (TypeError "Argument 2 type invalid.")
         {| store := []; listeners := []; log := []; devMode := false |}.
Proof. split; reflexivity. Qed.

(** * The older client *)

Section Reset.

Lemma fold_deleteKey (ks : list string) :
  forall g,
    fold_left deleteKey ks g
    = {| GraphQLClient.cache :=
           fold_left (fun c k => delete k c) ks (GraphQLClient.cache g);
         handlers := handlers g;
         emitted := emitted g |}.
Proof.
  induction ks as [|k ks IH]; intros g; cbn.
  - now destruct g.
  - now rewrite IH.
Qed.

Lemma get_fold_delete (ks : list string) :
  forall c j,
    get j (fold_left (fun c k => delete k c) ks c)
    = if among j ks then None else get j c.
Proof.
  induction ks as [|k ks IH]; intros c j; cbn; [reflexivity|].
  rewrite IH. destruct (j =? k) eqn:E; cbn.
  - apply String.eqb_eq in E. subst j. rewrite get_delete_same.
    now destruct (among k ks).
  - apply String.eqb_neq in E. now rewrite get_delete_other.
Qed.

End Reset.

(** C10, as the code has it.  [reset(exceptCacheKey)] emits exactly one
    event, of type [reset], carrying its argument, and the cache at that
    moment already has every deletion applied: when the argument is a
    string other than the empty one, the entry at that key is as it was and
    every other key is gone; for any other argument every key is gone.
    The cache the call leaves is what the handlers of the event make of
    that one. *)
Theorem reset_correct (exceptCacheKey : Value) (g : GraphQL) :
  exists c,
    emitted (reset exceptCacheKey g)
    = emitted g ++ [{| etype := "reset"; edetail := exceptCacheKey; ecache := c |}]
    /\ (forall k,
          get k c = match exempt exceptCacheKey with
                    | Some kept => if k =? kept
                                   then get k (GraphQLClient.cache g)
                                   else None
                    | None => None
                    end)
    /\ GraphQLClient.cache (reset exceptCacheKey g)
       = handle (handlers g) "*" exceptCacheKey
           (handle (handlers g) "reset" exceptCacheKey c).
Proof.
  unfold reset, emit. rewrite fold_deleteKey. cbn.
  eexists. split; [reflexivity|]. split; [|reflexivity].
  intros k. rewrite get_fold_delete.
  set (c := GraphQLClient.cache g).
  assert (All : (if among k (keys c) then None else get k c) = None).
  { destruct (among k (keys c)) eqn:E; [reflexivity|].
    apply has_false_get. destruct (has k c) eqn:P; [|reflexivity].
    apply ownKeys_has, among_In in P. unfold keys in E. congruence. }
  assert (Same : forall l : list string, filter (fun hash => negb false) l = l).
  { induction l as [|x l IH]; cbn; [reflexivity|]. f_equal. exact IH. }
  destruct exceptCacheKey as [| |b|n|s|f|r|]; cbn [truthy exempt strictEqString];
    try exact All;
    try (destruct b; [rewrite Same|]; exact All);
    try (destruct (n =? 0)%Z; cbn [negb]; [|rewrite Same]; exact All);
    try (rewrite Same; exact All).
  destruct (s =? "") eqn:Es; cbn [negb]; [exact All|].
  destruct (k =? s) eqn:Ek.
  - apply String.eqb_eq in Ek. subst k.
    destruct (among s (filter (fun hash => negb (hash =? s)) (keys c))) eqn:A;
      [|reflexivity].
    apply among_In, filter_In in A. destruct A as [_ A].
    now rewrite String.eqb_refl in A.
  - destruct (among k (filter (fun hash => negb (hash =? s)) (keys c))) eqn:A;
      [reflexivity|].
    apply has_false_get. destruct (has k c) eqn:P; [|reflexivity].
    apply ownKeys_has in P.
    assert (I : In k (filter (fun hash => negb (hash =? s)) (keys c))).
    { apply filter_In. split; [exact P|]. now rewrite Ek. }
    apply among_In in I. congruence.
Qed.

(** C10, as stated, fails for the empty string: the entry at that key is
    deleted with the others. *)
Lemma reset_deletes_empty_key :
  get "" (GraphQLClient.cache clientEmptyKey) = Some (VNumber 1)
  /\ get "" (GraphQLClient.cache (reset (VString "") clientEmptyKey)) = None
  /\ GraphQLClient.cache (reset (VString "") clientEmptyKey) = [].
Proof. repeat split. Qed.

(** * The loading registry *)

Section Registry.

Lemma inSet_In (i : nat) (ids : list nat) : inSet i ids = true <-> In i ids.
Proof.
  unfold inSet. rewrite existsb_exists. split.
  - intros (x & I & E). apply Nat.eqb_eq in E. now subst.
  - intros I. exists i. split; [assumption | apply Nat.eqb_refl].
Qed.

Lemma registered_spec (i : nat) (r : Registry) :
  registered i r = true <-> exists k ids, In (k, ids) r /\ In i ids.
Proof.
  unfold registered. rewrite existsb_exists. split.
  - intros ([k ids] & I & E). exists k, ids. split; [assumption|].
    now apply inSet_In.
  - intros (k & ids & I & E). exists (k, ids). split; [assumption|].
    now apply inSet_In.
Qed.

Lemma register_In (key : string) (n : nat) (r : Registry) (k : string)
  (ids : list nat) (i : nat) :
  In (k, ids) (register key n r) -> In i ids ->
  (exists ids0, In (k, ids0) r /\ In i ids0) \/ (k = key /\ i = n).
Proof.
  induction r as [|[j js] r IH]; cbn.
  - intros [H|[]] I. injection H as <- <-. right. destruct I as [I|[]].
    now split.
  - destruct (j =? key) eqn:E.
    + intros [H|H] I.
      * injection H as <- <-. apply String.eqb_eq in E.
        destruct (inSet n js).
        -- left. exists js. split; [now left | assumption].
        -- apply in_app_or in I as [I|[I|[]]].
           ++ left. exists js. split; [now left | assumption].
           ++ right. now split.
      * left. exists ids. split; [now right | assumption].
    + intros [H|H] I.
      * injection H as <- <-. left. exists js. split; [now left | assumption].
      * destruct (IH H I) as [(ids0 & I0 & I1)|R]; [|now right].
        left. exists ids0. split; [now right | assumption].
Qed.

Lemma registered_register_same (key : string) (n : nat) (r : Registry) :
  registered n (register key n r) = true.
Proof.
  apply registered_spec. induction r as [|[j js] r IH]; cbn.
  - exists key, [n]. split; now left.
  - destruct (j =? key).
    + eexists. eexists. split; [now left|].
      destruct (inSet n js) eqn:E; [now apply inSet_In|].
      apply in_or_app. right. now left.
    + destruct IH as (k & ids & I & E). exists k, ids. split; [now right|assumption].
Qed.

Lemma registered_register_mono (key : string) (n i : nat) (r : Registry) :
  registered i r = true -> registered i (register key n r) = true.
Proof.
  rewrite !registered_spec. intros (k & ids & I & E).
  induction r as [|[j js] r IH]; cbn; [contradiction|].
  destruct I as [I|I].
  - injection I as -> ->. destruct (k =? key).
    + eexists. eexists. split; [now left|].
      destruct (inSet n ids); [assumption|]. apply in_or_app. now left.
    + exists k, ids. split; [now left | assumption].
  - destruct (IH I) as (k' & ids' & I' & E').
    destruct (j =? key).
    + exists k, ids. split; [now right | assumption].
    + exists k', ids'. split; [now right | assumption].
Qed.

Lemma filter_cons_In (i0 i : nat) (ids : list nat) :
  In i (filter (fun j => negb (Nat.eqb i0 j)) ids) <-> In i ids /\ i <> i0.
Proof.
  rewrite filter_In. split; intros [I N]; split; try assumption.
  - intros ->. now rewrite Nat.eqb_refl in N.
  - apply negb_true_iff, Nat.eqb_neq. intros E. now apply N.
Qed.

Lemma unregister_In (key : string) (i0 : nat) (r : Registry) (k : string)
  (ids : list nat) (i : nat) :
  In (k, ids) (unregister key i0 r) -> In i ids ->
  (exists ids0, In (k, ids0) r /\ In i ids0) /\ (k = key -> i <> i0).
Proof.
  induction r as [|[j js] r IH]; cbn; [contradiction|].
  destruct (j =? key) eqn:E.
  - apply String.eqb_eq in E. subst j.
    assert (Old : In (k, ids) (unregister key i0 r) -> In i ids ->
                  (exists ids0, In (k, ids0) ((key, js) :: r) /\ In i ids0)
                  /\ (k = key -> i <> i0)).
    { intros H I. destruct (IH H I) as [(ids0 & I0 & I1) N].
      split; [|assumption]. exists ids0. split; [now right | assumption]. }
    destruct (filter (fun j => negb (Nat.eqb i0 j)) js) as [|x xs] eqn:F;
      [exact Old|].
    intros [H|H] I; [|now apply Old].
    injection H as <- <-. rewrite <- F in I.
    apply filter_cons_In in I as [I N]. split; [|now intros _].
    exists js. split; [now left | assumption].
  - intros [H|H] I.
    + injection H as <- <-. split.
      * exists js. split; [now left | assumption].
      * intros ->. now rewrite String.eqb_refl in E.
    + destruct (IH H I) as [(ids0 & I0 & I1) N]. split; [|assumption].
      exists ids0. split; [now right | assumption].
Qed.

Lemma registered_unregister_other (key : string) (i0 i : nat) (r : Registry) :
  i <> i0 -> registered i r = true -> registered i (unregister key i0 r) = true.
Proof.
  intros N. rewrite !registered_spec. intros (k & ids & I & E).
  induction r as [|[j js] r IH]; cbn; [contradiction|].
  destruct I as [I|I].
  - injection I as -> ->. destruct (k =? key).
    + assert (F : In i (filter (fun x => negb (Nat.eqb i0 x)) ids))
        by (apply filter_cons_In; now split).
      destruct (filter (fun x => negb (Nat.eqb i0 x)) ids) as [|x xs];
        [contradiction|].
      exists k, (x :: xs). split; [now left | assumption].
    + exists k, ids. split; [now left | assumption].
  - destruct (IH I) as (k' & ids' & I' & E').
    exists k', ids'. split; [|assumption].
    destruct (j =? key); [|now right].
    destruct (filter (fun x => negb (Nat.eqb i0 x)) js); [assumption | now right].
Qed.

Lemma nth_error_setLoad (ls : list LoadingCacheValue) :
  forall id l i,
    id < List.length ls ->
    nth_error (setLoad id l ls) i = if Nat.eqb i id then Some l else nth_error ls i.
Proof.
  unfold setLoad. induction ls as [|x ls IH]; intros id l i H; cbn in H; [lia|].
  destruct id as [|id], i as [|i]; cbn; try reflexivity.
  apply IH. lia.
Qed.

End Registry.

(** * The loads in flight *)

Section Loads.

Lemma wf_start (w : World) : wf (start w).
Proof.
  split; cbn.
  - intros k ids id [].
  - intros [|id] l H; discriminate.
Qed.

Lemma wf_step (a : Action) (st : System) : wf st -> wf (step a st).
Proof.
  intros [W1 W2]. destruct a as [key b|i0|i0 v]; cbn.
  - split; cbn.
    + intros k ids id I E.
      destruct (register_In _ _ _ _ _ _ I E) as [(ids0 & I0 & E0)|[-> ->]].
      * destruct (W1 k ids0 id I0 E0) as (l & N & K & S).
        exists l. split; [|now split].
        rewrite nth_error_app1; [assumption|].
        apply nth_error_Some. congruence.
      * eexists. split.
        { rewrite nth_error_app2 by lia. rewrite Nat.sub_diag. reflexivity. }
        split; reflexivity.
    + intros id l N S.
      destruct (Nat.lt_ge_cases id (List.length (loads st))) as [L|L].
      * rewrite nth_error_app1 in N by assumption.
        apply registered_register_mono. now apply (W2 id l).
      * rewrite nth_error_app2 in N by assumption.
        destruct (id - List.length (loads st)) as [|d] eqn:D.
        -- assert (id = List.length (loads st)) as -> by lia.
           apply registered_register_same.
        -- now destruct d.
  - destruct (nth_error (loads st) i0) as [l0|] eqn:N0; [|now split].
    assert (L : i0 < List.length (loads st))
      by (apply nth_error_Some; congruence).
    split; cbn.
    + intros k ids id I E. destruct (W1 k ids id I E) as (l & N & K & S).
      rewrite nth_error_setLoad by assumption.
      destruct (Nat.eqb id i0) eqn:Q.
      * apply Nat.eqb_eq in Q. subst id. rewrite N0 in N. injection N as <-.
        eexists. split; [reflexivity|]. now split.
      * exists l. now repeat split.
    + intros id l. rewrite nth_error_setLoad by assumption.
      destruct (Nat.eqb id i0) eqn:Q.
      * apply Nat.eqb_eq in Q. subst id. intros [= <-] S. cbn in S.
        now apply (W2 i0 l0).
      * apply W2.
  - destruct (nth_error (loads st) i0) as [l0|] eqn:N0; [|now split].
    destruct (status l0) eqn:S0; try now split.
    assert (L : i0 < List.length (loads st))
      by (apply nth_error_Some; congruence).
    split; cbn.
    + intros k ids id I E.
      destruct (unregister_In _ _ _ _ _ _ I E) as [(ids0 & I0 & E0) D].
      destruct (W1 k ids0 id I0 E0) as (l & N & K & S).
      rewrite nth_error_setLoad by assumption.
      destruct (Nat.eqb id i0) eqn:Q.
      * apply Nat.eqb_eq in Q. subst id. rewrite N0 in N. injection N as <-.
        now destruct (D (eq_sym K)).
      * exists l. now repeat split.
    + intros id l. rewrite nth_error_setLoad by assumption.
      destruct (Nat.eqb id i0) eqn:Q.
      * intros [= <-] S. cbn in S. now destruct (signalAborted l0).
      * intros N S. apply Nat.eqb_neq in Q.
        apply registered_unregister_other; [assumption|]. now apply (W2 id l).
Qed.

Lemma wf_run (tr : list Action) : forall st, wf st -> wf (run tr st).
Proof.
  induction tr as [|a tr IH]; intros st W; cbn; [assumption|].
  apply IH, wf_step, W.
Qed.

Lemma run_app (tr1 tr2 : list Action) (st : System) :
  run (tr1 ++ tr2) st = run tr2 (run tr1 st).
Proof. apply fold_left_app. Qed.

(** An aborted load stays aborted, keeps its key, and a settlement takes it
    from [PENDING] to [ABORTED]. *)
Lemma step_aborted (a : Action) (st : System) (id : nat) (l : LoadingCacheValue) :
  nth_error (loads st) id = Some l ->
  signalAborted l = true ->
  exists l',
    nth_error (loads (step a st)) id = Some l'
    /\ signalAborted l' = true
    /\ status l' = match status l with
                   | PENDING => if settles id a then ABORTED else PENDING
                   | s => s
                   end.
Proof.
  intros N A.
  assert (L : id < List.length (loads st)) by (apply nth_error_Some; congruence).
  destruct a as [key b|i0|i0 v]; cbn.
  - exists l. rewrite nth_error_app1 by assumption.
    split; [assumption|]. split; [assumption|]. now destruct (status l).
  - destruct (nth_error (loads st) i0) as [l0|] eqn:N0.
    + cbn. rewrite nth_error_setLoad
        by (apply nth_error_Some; congruence).
      destruct (Nat.eqb id i0) eqn:Q.
      * apply Nat.eqb_eq in Q. subst i0. rewrite N in N0. injection N0 as <-.
        eexists. split; [reflexivity|]. cbn. split; [reflexivity|].
        now destruct (status l).
      * exists l. split; [assumption|]. split; [assumption|].
        now destruct (status l).
    + exists l. split; [assumption|]. split; [assumption|].
      now destruct (status l).
  - destruct (nth_error (loads st) i0) as [l0|] eqn:N0.
    + destruct (status l0) eqn:S0; cbn.
      * rewrite nth_error_setLoad by (apply nth_error_Some; congruence).
        rewrite (Nat.eqb_sym i0 id).
        destruct (Nat.eqb id i0) eqn:Q.
        -- apply Nat.eqb_eq in Q. subst i0. rewrite N in N0. injection N0 as <-.
           eexists. split; [reflexivity|]. cbn. split; [assumption|].
           now rewrite S0, A.
        -- exists l. split; [assumption|]. split; [assumption|].
           now destruct (status l).
      * exists l. split; [assumption|]. split; [assumption|].
        destruct (Nat.eqb i0 id) eqn:Q; [|now destruct (status l)].
        apply Nat.eqb_eq in Q. subst i0. rewrite N in N0. injection N0 as <-.
        now rewrite S0.
      * exists l. split; [assumption|]. split; [assumption|].
        destruct (Nat.eqb i0 id) eqn:Q; [|now destruct (status l)].
        apply Nat.eqb_eq in Q. subst i0. rewrite N in N0. injection N0 as <-.
        now rewrite S0.
    + exists l. split; [assumption|]. split; [assumption|].
      destruct (Nat.eqb i0 id) eqn:Q; [|now destruct (status l)].
      apply Nat.eqb_eq in Q. subst i0. congruence.
Qed.

(** An action of an aborted load leaves the cache alone. *)
Lemma step_aborted_cache (a : Action) (st : System) (id : nat)
  (l : LoadingCacheValue) :
  nth_error (loads st) id = Some l ->
  signalAborted l = true ->
  actor a = Some id ->
  LoadingCore.cache (step a st) = LoadingCore.cache st.
Proof.
  intros N A E. destruct a as [key b|i0|i0 v]; cbn in E; try discriminate;
    injection E as ->; cbn; rewrite N; [reflexivity|].
  destruct (status l); [|reflexivity|reflexivity]. cbn. now rewrite A.
Qed.

Lemma run_aborted (tr : list Action) (id : nat) :
  forall st l,
    nth_error (loads st) id = Some l ->
    signalAborted l = true ->
    status l = PENDING ->
    exists l',
      nth_error (loads (run tr st)) id = Some l'
      /\ signalAborted l' = true
      /\ status l' = if existsb (settles id) tr then ABORTED else PENDING.
Proof.
  assert (G : forall tr st l,
             nth_error (loads st) id = Some l ->
             signalAborted l = true ->
             status l = ABORTED ->
             exists l',
               nth_error (loads (run tr st)) id = Some l'
               /\ signalAborted l' = true /\ status l' = ABORTED).
  { clear tr. induction tr as [|a tr IH]; intros st l N A S; cbn.
    - exists l. now repeat split.
    - destruct (step_aborted a st id l N A) as (l1 & N1 & A1 & S1).
      rewrite S in S1. now apply (IH _ l1). }
  induction tr as [|a tr IH]; intros st l N A S; cbn.
  - exists l. now repeat split.
  - destruct (step_aborted a st id l N A) as (l1 & N1 & A1 & S1).
    rewrite S in S1. destruct (settles id a); cbn.
    + now apply (G tr _ l1).
    + now apply (IH _ l1).
Qed.

End Loads.

(** C1.  Take a load that is pending, abort it, and let anything happen
    afterwards: other loads are constructed, aborted, settled, and this one
    settles, with any value.  No action of the aborted load changes the
    cache, neither its store nor its dispatched events, so its settlement
    writes nothing; and the load is in the registry as long as it has not
    settled and out of it from its settlement on, where it ends [ABORTED]:
    it is removed once and never comes back. *)
Theorem aborted_load_never_commits (st : System) (id : nat) (tr : list Action) :
  wf st ->
  statusOf id st = Some PENDING ->
  (forall pre a post,
      tr = pre ++ a :: post -> actor a = Some id ->
      LoadingCore.cache (run (Abort id :: pre ++ [a]) st)
      = LoadingCore.cache (run (Abort id :: pre) st))
  /\ registered id (loadingStore (run (Abort id :: tr) st))
     = negb (existsb (settles id) tr)
  /\ statusOf id (run (Abort id :: tr) st)
     = Some (if existsb (settles id) tr then ABORTED else PENDING).
Proof.
  intros W S. unfold statusOf in S.
  destruct (nth_error (loads st) id) as [l0|] eqn:N0; [|discriminate].
  injection S as S.
  assert (L : id < List.length (loads st)) by (apply nth_error_Some; congruence).
  set (st1 := step (Abort id) st).
  assert (N1 : nth_error (loads st1) id
               = Some {| cacheKey := cacheKey l0; signalAborted := true;
                         status := status l0 |}).
  { unfold st1. cbn. rewrite N0. cbn. rewrite nth_error_setLoad by assumption.
    now rewrite Nat.eqb_refl. }
  assert (R : forall t, run (Abort id :: t) st = run t st1) by reflexivity.
  split; [|split].
  - intros pre a post _ E. rewrite !R, run_app. cbn.
    destruct (run_aborted pre id st1 _ N1 eq_refl S) as (l & N & A & _).
    now apply (step_aborted_cache a _ id l).
  - rewrite R.
    destruct (run_aborted tr id st1 _ N1 eq_refl S) as (l & N & A & T).
    destruct (wf_run tr st1 (wf_step _ _ W)) as [W1 W2].
    destruct (existsb (settles id) tr); cbn [negb].
    + destruct (registered id (loadingStore (run tr st1))) eqn:G; [|reflexivity].
      apply registered_spec in G as (k & ids & I & E).
      destruct (W1 k ids id I E) as (l' & N' & _ & T'). congruence.
    + now apply (W2 id l).
  - rewrite R. unfold statusOf.
    destruct (run_aborted tr id st1 _ N1 eq_refl S) as (l & N & A & T).
    rewrite N. cbn. now rewrite T.
Qed.

Lemma aborted_load_never_commits_witness :
  (forall pre a post,
      [Settle 0 (VNumber 7)] = pre ++ a :: post -> actor a = Some 0 ->
      LoadingCore.cache (run (Abort 0 :: pre ++ [a]) oneLoad)
      = LoadingCore.cache (run (Abort 0 :: pre) oneLoad))
  /\ registered 0 (loadingStore (run [Abort 0; Settle 0 (VNumber 7)] oneLoad))
     = false
  /\ statusOf 0 (run [Abort 0; Settle 0 (VNumber 7)] oneLoad) = Some ABORTED.
Proof.
  exact (aborted_load_never_commits oneLoad 0 [Settle 0 (VNumber 7)]
           (wf_run _ _ (wf_start _)) eq_refl).
Defined.

(** The scenario of the abort test: the load for [x] is aborted and then
    settles with the fetch error; the store is as it was, nothing was
    dispatched, the registry is empty. *)
Example abort_scenario :
  let st := run [Abort 0; Settle 0 (VObject 0)] oneLoad in
  store (LoadingCore.cache st) = store (LoadingCore.cache oneLoad)
  /\ log (LoadingCore.cache st) = []
  /\ loadingStore st = []
  /\ loadingLog st = ["x/start"; "x/end"].
Proof. repeat split. Qed.

(** Two overlapping loads for [x]: the first is aborted, the second
    settles with 42. *)
Example overlap_scenario :
  let st := run [Construct "x" false; Construct "x" false; Abort 0;
                 Settle 0 (VNumber 7); Settle 1 (VNumber 42)]
              (start {| store := []; listeners := []; log := [];
                        devMode := true |}) in
  store (LoadingCore.cache st) = [("x", VNumber 42)]
  /\ loadingStore st = [].
Proof. split; reflexivity. Qed.

(** * More on the cache operations *)

Section MoreWalks.

Lemma walk_nothing (visit : string -> Obj -> Obj * list Dispatch)
  (ks : list string) (s : Obj) :
  (forall k, has k s = true -> visit k s = (s, [])) ->
  walk visit ks s = (s, []).
Proof.
  intros V. induction ks as [|k rest IH]; cbn; [reflexivity|].
  destruct (has k s) eqn:P; [|exact IH]. now rewrite (V k P), IH.
Qed.

Lemma walked_nothing (visit : string -> Obj -> Obj * list Dispatch) (w : World) :
  (forall k, has k (store w) = true -> visit k (store w) = (store w, [])) ->
  walked visit w = w.
Proof.
  intros V. unfold walked. rewrite (walk_nothing _ _ _ V). apply world_eta.
Qed.

Lemma visitOf_unmatched (op : Value -> Value -> M unit) (matcher : Value)
  (ls : list (string * Listener)) (dev : bool) (k : string) (s : Obj) :
  matches matcher k = false -> visitOf op matcher ls dev k s = (s, []).
Proof. unfold visitOf. now intros ->. Qed.

Lemma cacheDelete_nothing (m : option (string -> bool)) (w : World) :
  (forall k, has k (store w) = true -> matches (matcherArg m) k = false) ->
  cacheDelete VCache (matcherArg m) w = Returned tt w.
Proof.
  intros N. rewrite cacheDelete_walk, walked_nothing; [reflexivity|].
  intros k P. apply visitOf_unmatched, N, P.
Qed.

End MoreWalks.

(** X1.  A bulk operation whose matcher matches no key of the store, in
    particular any bulk operation on an empty store, returns with the world
    as it was: no entry is touched, no event is dispatched, no listener
    runs. *)
Theorem bulk_without_match (m : option (string -> bool)) (w : World) :
  (forall k, has k (store w) = true -> matches (matcherArg m) k = false) ->
  cacheDelete VCache (matcherArg m) w = Returned tt w
  /\ cacheStale VCache (matcherArg m) w = Returned tt w
  /\ cachePrune VCache (matcherArg m) w = Returned tt w.
Proof.
  intros N.
  rewrite cacheDelete_walk, cacheStale_walk, cachePrune_walk.
  rewrite !walked_nothing; [repeat split| | |];
    intros k P; apply visitOf_unmatched, N, P.
Qed.

Lemma bulk_without_match_witness :
  cacheDelete VCache (VFunction (fun k => k =? "c")) (cacheAB [("a/delete", wrecker)])
  = Returned tt (cacheAB [("a/delete", wrecker)])
  /\ cacheStale VCache (VFunction (fun k => k =? "c")) (cacheAB [("a/delete", wrecker)])
     = Returned tt (cacheAB [("a/delete", wrecker)])
  /\ cachePrune VCache (VFunction (fun k => k =? "c")) (cacheAB [("a/delete", wrecker)])
     = Returned tt (cacheAB [("a/delete", wrecker)]).
Proof.
  apply (bulk_without_match (Some (fun k => k =? "c"))
           (cacheAB [("a/delete", wrecker)])).
  intros k P. apply has_In in P. cbn in P.
  destruct P as [<-|[<-|[]]]; reflexivity.
Defined.

(** X2.  The first argument is checked first: with a first argument that is
    not a [Cache] every operation reports argument 1, whatever the second
    argument is; with a [Cache], a key that is not a string or a matcher
    that is neither undefined nor a function is reported as argument 2.
    Outside production the message names the argument, in production it is
    [Argument N type invalid.]; [cacheStale.mjs] uses the descriptive
    message in both.  The world is as before the call. *)
Theorem argument_errors (w : World) (cache arg : Value) :
  (instanceofCache cache = false ->
     let e := TypeError (argMessage w
                "Argument 1 `cache` must be a `Cache` instance." 1) in
     cacheEntryDelete cache arg w = Threw e w
     /\ cacheEntryStale cache arg w = Threw e w
     /\ cacheDelete cache arg w = Threw e w
     /\ cachePrune cache arg w = Threw e w
     /\ cacheStale cache arg w
        = Threw (TypeError "Argument 1 `cache` must be a `Cache` instance.") w)
  /\ (instanceofCache cache = true ->
      ((typeof arg =? "string") = false ->
         let e := TypeError (argMessage w
                    "Argument 2 `cacheKey` must be a string." 2) in
         cacheEntryDelete cache arg w = Threw e w
         /\ cacheEntryStale cache arg w = Threw e w)
      /\ (isUndefined arg || (typeof arg =? "function") = false ->
            let e := TypeError (argMessage w
                       "Argument 2 `cacheKeyMatcher` must be a function." 2) in
            cacheDelete cache arg w = Threw e w
            /\ cachePrune cache arg w = Threw e w
            /\ cacheStale cache arg w
               = Threw (TypeError
                          "Argument 2 `cacheKeyMatcher` must be a function.") w)).
Proof.
  split.
  - intros C. destruct cache; try discriminate; repeat split.
  - intros C. destruct cache; try discriminate. split.
    + intros K. destruct arg; try discriminate; split; reflexivity.
    + intros K. destruct arg; try discriminate; repeat split.
Qed.

Lemma argument_errors_witness :
  cacheDelete VNull (VBool true)
    {| store := []; listeners := []; log := []; devMode := false |}
  = Threw (TypeError "Argument 1 type invalid.")
      {| store := []; listeners := []; log := []; devMode := false |}
  /\ cacheEntryStale VCache VUndefined (cacheAB [])
     = Threw (TypeError "Argument 2 `cacheKey` must be a string.") (cacheAB [])
  /\ cacheStale VCache VNull
       {| store := []; listeners := []; log := []; devMode := false |}
     = Threw (TypeError "Argument 2 `cacheKeyMatcher` must be a function.")
         {| store := []; listeners := []; log := []; devMode := false |}.
Proof.
  destruct (argument_errors
              {| store := []; listeners := []; log := []; devMode := false |}
              VNull (VBool true)) as [A1 _].
  destruct (argument_errors (cacheAB []) VCache VUndefined) as [_ A2].
  destruct (argument_errors
              {| store := []; listeners := []; log := []; devMode := false |}
              VCache VNull) as [_ A3].
  split; [|split].
  - exact (proj1 (proj2 (proj2 (A1 eq_refl)))).
  - exact (proj2 (proj1 (A2 eq_refl) eq_refl)).
  - exact (proj2 (proj2 (proj2 (A3 eq_refl) eq_refl))).
Defined.

(** X3.  With arguments of the right types [cacheEntryDelete],
    [cacheDelete] and [cacheStale] always return, whatever the listeners do
    to the store, and [cacheEntryStale] returns exactly when
    [cacheKey in cache.store] holds: when the key is an own property of the
    store or names a property of [Object.prototype].  In particular
    [cacheStale] never meets a key for which it throws, although a listener
    may have removed it. *)
Theorem valid_arguments_return (key : string) (m : option (string -> bool))
  (w : World) :
  (exists w', cacheEntryDelete VCache (VString key) w = Returned tt w')
  /\ (exists w', cacheDelete VCache (matcherArg m) w = Returned tt w')
  /\ (exists w', cacheStale VCache (matcherArg m) w = Returned tt w')
  /\ ((exists w', cacheEntryStale VCache (VString key) w = Returned tt w')
      <-> (has key (store w) = true \/ inherited key = true)).
Proof.
  rewrite cacheEntryDelete_run, cacheDelete_walk, cacheStale_walk,
    cacheEntryStale_run.
  unfold hasProperty. rewrite <- orb_true_iff.
  repeat split; eauto.
  - destruct (has key (store w) || inherited key); eauto.
  - destruct (has key (store w) || inherited key); [reflexivity|].
    intros [w' H]. discriminate.
  - intros ->. eauto.
Qed.

(** X4.  With listeners that write nothing themselves and a key that does
    not name a property of [Object.prototype], once [cacheEntryDelete] has
    run for the key, a second [cacheEntryDelete] for it changes nothing and
    dispatches nothing, and [cacheEntryStale] for it throws the error that
    the key is not in the store. *)
Theorem deleted_entry_is_gone (w : World) (key : string) :
  quiet (listeners w) ->
  inherited key = false ->
  let w1 := final (cacheEntryDelete VCache (VString key) w) in
  has key (store w1) = false
  /\ cacheEntryDelete VCache (VString key) w1 = Returned tt w1
  /\ cacheEntryStale VCache (VString key) w1
     = Threw (Error ("Cache key `" ++ key ++ "` isn’t in the store.")) w1.
Proof.
  intros Q I w1.
  assert (G : has key (store w1) = false).
  { unfold w1. rewrite cacheEntryDelete_run, (hasProperty_own _ _ I).
    destruct (has key (store w)) eqn:P; cbn; [|exact P].
    rewrite invoke_quiet by exact Q. apply has_delete_same. }
  split; [exact G|].
  rewrite cacheEntryDelete_run, cacheEntryStale_run, (hasProperty_own _ _ I), G.
  now split.
Qed.

Lemma deleted_entry_is_gone_witness :
  let w1 := final (cacheEntryDelete VCache (VString "a")
                     (cacheAB [("a/delete", recorder)])) in
  has "a" (store w1) = false
  /\ cacheEntryDelete VCache (VString "a") w1 = Returned tt w1
  /\ cacheEntryStale VCache (VString "a") w1
     = Threw (Error "Cache key `a` isn’t in the store.") w1.
Proof.
  apply (deleted_entry_is_gone (cacheAB [("a/delete", recorder)]) "a").
  - intros t l [H|[]] ev s. injection H as <- <-. reflexivity.
  - reflexivity.
Defined.

Section ExactStores.

Variable matcher : Value.

Lemma delete_filter (k : string) (s : Obj) :
  delete k s = filter (fun e => negb (fst e =? k)) s.
Proof.
  induction s as [|[j v] s IH]; cbn; [reflexivity|].
  destruct (j =? k); cbn; now rewrite IH.
Qed.

Lemma filter_filter {A : Type} (f g : A -> bool) (l : list A) :
  filter f (filter g l) = filter (fun x => g x && f x) l.
Proof.
  induction l as [|x l IH]; cbn; [reflexivity|].
  destruct (g x); cbn; [destruct (f x)|]; now rewrite IH.
Qed.

Lemma walk_delete_store (ks : list string) :
  forall s,
    fst (walk (deleteQuietly matcher) ks s)
    = filter (fun e => negb (matches matcher (fst e) && among (fst e) ks)) s.
Proof.
  induction ks as [|k rest IH]; intros s; cbn.
  - rewrite <- (filter_ext (fun _ => true)).
    + induction s as [|e s IHs]; cbn; [reflexivity|]. now rewrite <- IHs.
    + intros e. now rewrite andb_false_r.
  - destruct (has k s) eqn:P.
    + unfold deleteQuietly at 1. destruct (matches matcher k) eqn:Mk.
      * specialize (IH (delete k s)).
        destruct (walk (deleteQuietly matcher) rest (delete k s)) as [s2 d2].
        cbn in *. rewrite IH, delete_filter, filter_filter.
        apply filter_ext. intros [j v]. cbn.
        destruct (String.eqb_spec j k) as [->|N]; cbn.
        -- now rewrite Mk.
        -- reflexivity.
      * specialize (IH s).
        destruct (walk (deleteQuietly matcher) rest s) as [s2 d2].
        cbn in *. rewrite IH. apply filter_ext. intros [j v]. cbn.
        destruct (String.eqb_spec j k) as [->|N]; cbn; [|reflexivity].
        now rewrite Mk.
    + rewrite IH. apply filter_ext_in. intros [j v] I. cbn.
      destruct (String.eqb_spec j k) as [->|N]; cbn; [|reflexivity].
      assert (has k s = true); [|congruence].
      apply has_In. change k with (fst (k, v)). now apply in_map.
Qed.

Lemma walk_stale (ks : list string) (s : Obj) :
  (forall k, In k ks -> has k s = true) ->
  walk (staleQuietly matcher) ks s
  = (s, map (fun k => {| event := staleEvent k; seen := s |})
          (filter (matches matcher) ks)).
Proof.
  induction ks as [|k rest IH]; intros A; cbn; [reflexivity|].
  rewrite (A k (or_introl eq_refl)). unfold staleQuietly at 1.
  destruct (matches matcher k); cbn;
    rewrite IH by (intros j I; apply A; now right); reflexivity.
Qed.

End ExactStores.

(** X5.  With listeners that write nothing themselves, [cacheDelete] leaves
    exactly the entries whose key does not match, in the order they had;
    without a matcher it leaves the store empty.  A second [cacheDelete]
    with the same matcher then changes nothing and dispatches nothing. *)
Theorem cacheDelete_leaves_unmatched (m : option (string -> bool)) (w : World) :
  quiet (listeners w) ->
  exists w',
    cacheDelete VCache (matcherArg m) w = Returned tt w'
    /\ store w' = withoutMatching (matcherArg m) (store w)
    /\ (m = None -> store w' = [])
    /\ cacheDelete VCache (matcherArg m) w' = Returned tt w'.
Proof.
  intros Q. rewrite cacheDelete_walk. eexists. split; [reflexivity|].
  assert (S : store (walked (visitOf cacheEntryDelete (matcherArg m)
                               (listeners w) (devMode w)) w)
              = withoutMatching (matcherArg m) (store w)).
  { unfold walked. cbn [store].
    rewrite (walk_ext _ (deleteQuietly (matcherArg m)))
      by (intros k s P; now apply delete_visit_quiet).
    rewrite walk_delete_store. apply filter_ext_in. intros [j v] I. cbn.
    assert (A : among j (ownKeys (store w)) = true).
    { apply among_In, ownKeys_has, has_In.
      change j with (fst (j, v)). now apply in_map. }
    now rewrite A, andb_true_r. }
  split; [exact S|]. split.
  - intros ->. rewrite S. unfold withoutMatching. cbn. clear S.
    induction (store w) as [|e s IH]; cbn; [reflexivity | exact IH].
  - set (w' := walked _ w) in *.
    apply cacheDelete_nothing.
    intros k P. rewrite S in P. apply has_In, in_map_iff in P.
    destruct P as ([j v] & <- & I). apply filter_In in I as [_ I].
    now apply negb_true_iff in I.
Qed.

Lemma cacheDelete_leaves_unmatched_witness :
  exists w',
    cacheDelete VCache (VFunction notB) (cacheOfABC deleteRecorders true)
    = Returned tt w'
    /\ store w' = [("b", VNumber 2)]
    /\ cacheDelete VCache (VFunction notB) w' = Returned tt w'.
Proof.
  destruct (cacheDelete_leaves_unmatched (Some notB)
              (cacheOfABC deleteRecorders true) quiet_deleteRecorders)
    as (w' & R & S & _ & I).
  exists w'. split; [exact R|]. split; [exact S | exact I].
Defined.

(** X6.  With listeners that write nothing themselves, [cacheStale] leaves
    the store as it was and dispatches one [<key>/stale] event for each
    matching key, in the order of enumeration, each on the unchanged
    store. *)
Theorem cacheStale_notifies_matching (m : option (string -> bool)) (w : World) :
  quiet (listeners w) ->
  exists w',
    cacheStale VCache (matcherArg m) w = Returned tt w'
    /\ store w' = store w
    /\ log w' = log w ++ staleDispatches (matcherArg m) (store w).
Proof.
  intros Q. rewrite cacheStale_walk. eexists. split; [reflexivity|].
  unfold walked. cbn [store log].
  rewrite (walk_ext _ (staleQuietly (matcherArg m)))
    by (intros k s P; now apply stale_visit_quiet).
  rewrite walk_stale by (intros k; apply ownKeys_has). now split.
Qed.

Lemma cacheStale_notifies_matching_witness :
  exists w',
    cacheStale VCache (VFunction notB) (cacheOfABC deleteRecorders true)
    = Returned tt w'
    /\ store w' = storeABC
    /\ types (log w') = ["a/stale"; "c/stale"].
Proof.
  destruct (cacheStale_notifies_matching (Some notB)
              (cacheOfABC deleteRecorders true) quiet_deleteRecorders)
    as (w' & R & S & L).
  exists w'. split; [exact R|]. split; [exact S|]. rewrite L. reflexivity.
Defined.

Section EventNames.

Lemma list_ascii_app (a b : string) :
  list_ascii_of_string (a ++ b)
  = (list_ascii_of_string a ++ list_ascii_of_string b)%list.
Proof. induction a as [|c a IH]; cbn; [reflexivity|]. now rewrite IH. Qed.

Lemma list_ascii_inj (a b : string) :
  list_ascii_of_string a = list_ascii_of_string b -> a = b.
Proof.
  intros E. rewrite <- (string_of_list_ascii_of_string a),
    <- (string_of_list_ascii_of_string b). now rewrite E.
Qed.

(** The name of an event tells its key and its kind. *)
Lemma eventName_inj (k1 k2 kd1 kd2 : string) :
  In kd1 eventKinds -> In kd2 eventKinds ->
  eventName k1 kd1 = eventName k2 kd2 -> k1 = k2 /\ kd1 = kd2.
Proof.
  unfold eventName. intros I1 I2 E.
  apply (f_equal list_ascii_of_string) in E. rewrite !list_ascii_app in E.
  cbn in I1, I2.
  destruct I1 as [<-|[<-|[<-|[<-|[]]]]], I2 as [<-|[<-|[<-|[<-|[]]]]];
    try (apply app_inv_tail in E; apply list_ascii_inj in E;
         split; [exact E | reflexivity]);
    exfalso; apply (f_equal (@rev ascii)) in E;
    rewrite !rev_app_distr in E; cbn in E; congruence.
Qed.

Lemma invoke_unnotified (ls : list (string * Listener)) (ev : Event) (s : Obj) :
  (forall t l, In (t, l) ls -> t <> type ev) -> invoke ls ev s = (s, false).
Proof.
  induction ls as [|[t l] ls IH]; intros N; cbn; [reflexivity|].
  destruct (String.eqb_spec t (type ev)) as [E|_].
  - now destruct (N t l (or_introl eq_refl)).
  - apply IH. intros u h I. apply (N u h). now right.
Qed.

Lemma noListenerFor_names (key kind : string) (ls : list (string * Listener)) :
  In kind eventKinds ->
  noListenerFor key kind ls ->
  forall t l, In (t, l) ls -> t <> eventName key kind.
Proof.
  intros K N t l I E. destruct (N t l I) as (j & kd & Ik & -> & D).
  destruct (eventName_inj _ _ _ _ Ik K E) as [-> ->]. now destruct D.
Qed.

End EventNames.

(** X7.  The events of different keys and kinds have different names, so
    an entry operation notifies the listeners of its own key and kind
    only: when every listener is registered for the event of another key
    or another kind, [cacheEntryDelete] leaves the store without the key
    and [cacheEntryStale] leaves it as it was, whatever those listeners
    would do. *)
Theorem others_are_not_notified (w : World) (key : string) :
  has key (store w) = true ->
  (noListenerFor key "delete" (listeners w) ->
     exists w',
       cacheEntryDelete VCache (VString key) w = Returned tt w'
       /\ store w' = delete key (store w))
  /\ (noListenerFor key "stale" (listeners w) ->
        exists w',
          cacheEntryStale VCache (VString key) w = Returned tt w'
          /\ store w' = store w).
Proof.
  intros P.
  rewrite cacheEntryDelete_run, cacheEntryStale_run, (hasProperty_has _ _ P).
  split; intros N; eexists; (split; [reflexivity|]); cbn [store];
    rewrite invoke_unnotified; try reflexivity.
  - apply (noListenerFor_names key "delete"); [cbn; tauto | exact N].
  - apply (noListenerFor_names key "stale"); [cbn; tauto | exact N].
Qed.

Lemma others_are_not_notified_witness :
  (exists w',
     cacheEntryDelete VCache (VString "a")
       (cacheAB [("b/delete", wrecker); ("a/stale", wrecker)])
     = Returned tt w'
     /\ store w' = [("b", VNumber 2)])
  /\ (exists w',
        cacheEntryStale VCache (VString "b")
          (cacheAB [("b/delete", wrecker); ("a/stale", wrecker)])
        = Returned tt w'
        /\ store w' = [("a", VNumber 1); ("b", VNumber 2)]).
Proof.
  split.
  - apply (others_are_not_notified
             (cacheAB [("b/delete", wrecker); ("a/stale", wrecker)]) "a" eq_refl).
    intros t l [H|[H|[]]]; injection H as <- <-.
    + exists "b", "delete". cbn. split; [tauto|]. split; [reflexivity|].
      left. discriminate.
    + exists "a", "stale". cbn. split; [tauto|]. split; [reflexivity|].
      right. discriminate.
  - apply (others_are_not_notified
             (cacheAB [("b/delete", wrecker); ("a/stale", wrecker)]) "b" eq_refl).
    intros t l [H|[H|[]]]; injection H as <- <-.
    + exists "b", "delete". cbn. split; [tauto|]. split; [reflexivity|].
      right. discriminate.
    + exists "a", "stale". cbn. split; [tauto|]. split; [reflexivity|].
      left. discriminate.
Defined.

(** * The older client: operations *)

Section OperationFacts.

Import Operations.

Lemma nth_error_setNth {A : Type} (l : list A) :
  forall n x i,
    n < List.length l ->
    nth_error (setNth n x l) i = if Nat.eqb i n then Some x else nth_error l i.
Proof.
  unfold setNth. induction l as [|y l IH]; intros n x i H; cbn in H; [lia|].
  destruct n as [|n], i as [|i]; cbn; try reflexivity.
  apply IH. lia.
Qed.

End OperationFacts.



Section Tracked.

Import Operations.

Lemma tracked_new (g : GraphQLClient.GraphQL) : tracked (newClient g).
Proof. intros [|p] o H; discriminate. Qed.

Lemma tracked_fetch (avail : bool) (k : string) (c : Client) :
  tracked c ->
  (forall v, get k (operations c) = Some v -> truthy v = false) ->
  tracked (fst (fetch avail k c)).
Proof.
  intros T F p o N U. cbn in *.
  destruct (Nat.lt_ge_cases p (List.length (promises c))) as [L|L].
  - rewrite nth_error_app1 in N by assumption.
    pose proof (T p o N U) as G.
    destruct (String.eqb_spec (okey o) k) as [E|E].
    + rewrite E in G. now apply F in G.
    + now rewrite get_set_other.
  - rewrite nth_error_app2 in N by assumption.
    destruct (p - List.length (promises c)) as [|d] eqn:D.
    + injection N as <-. cbn.
      assert (p = List.length (promises c)) as -> by lia.
      apply get_set_same.
    + now destruct d.
Qed.

Lemma tracked_thenReset (p : nat) (c : Client) :
  tracked c -> tracked (thenReset p c).
Proof.
  intros T. unfold thenReset.
  destruct (nth_error (promises c) p) as [o|] eqn:N; [|exact T].
  intros q o' N' U. cbn in *.
  rewrite nth_error_setNth in N' by (apply nth_error_Some; congruence).
  destruct (Nat.eqb_spec q p) as [->|D].
  - injection N' as <-. cbn in *. now apply T.
  - now apply T.
Qed.

Lemma tracked_operate (avail : bool) (k : string) (r : bool) (c : Client) :
  tracked c -> tracked (fst (operate avail k r c)).
Proof.
  intros T. unfold operate.
  destruct (get k (operations c)) as [v|] eqn:G.
  - destruct (truthy v) eqn:V.
    + cbn. destruct r; [now apply tracked_thenReset | assumption].
    + assert (F : tracked (fst (fetch avail k c))).
      { apply tracked_fetch; [assumption|]. rewrite G. now intros u [= <-]. }
      destruct (fetch avail k c) as [c1 p]. cbn in *.
      destruct r; [now apply tracked_thenReset | assumption].
  - assert (F : tracked (fst (fetch avail k c))).
    { apply tracked_fetch; [assumption|]. rewrite G. discriminate. }
    destruct (fetch avail k c) as [c1 p]. cbn in *.
    destruct r; [now apply tracked_thenReset | assumption].
Qed.

Lemma tracked_settle (p : nat) (outcome : Outcome) (c : Client) :
  tracked c -> tracked (settle p outcome c).
Proof.
  intros T. unfold settle.
  destruct (nth_error (promises c) p) as [o|] eqn:N; [|exact T].
  destruct (ofate o) eqn:Fo; try exact T.
  assert (L : p < List.length (promises c))
    by (apply nth_error_Some; congruence).
  assert (G : get (okey o) (operations c) = Some (VObject p))
    by (apply T; [assumption | congruence]).
  destruct (fill (if ofetch o then outcome
                  else Rejected "Global fetch API or polyfill unavailable."))
    as [v|].
  - intros q o' N' U. cbn in *. rewrite nth_error_setNth in N' by assumption.
    destruct (Nat.eqb_spec q p) as [->|D].
    + injection N' as <-. now destruct U.
    + pose proof (T q o' N' U) as G'.
      destruct (String.eqb_spec (okey o') (okey o)) as [E|E].
      * rewrite E, G in G'. congruence.
      * now rewrite get_delete_other.
  - intros q o' N' U. cbn in *. rewrite nth_error_setNth in N' by assumption.
    destruct (Nat.eqb_spec q p) as [->|D].
    + injection N' as <-. exact G.
    + now apply T.
Qed.

Lemma tracked_react (p : nat) (c : Client) : tracked c -> tracked (react p c).
Proof.
  intros T. unfold react.
  destruct (nth_error (promises c) p) as [o|] eqn:N; [|exact T].
  destruct (ofate o) eqn:Fo; try exact T.
  destruct (oresets o) as [|n]; [exact T|].
  intros q o' N' U. cbn in *.
  rewrite nth_error_setNth in N' by (apply nth_error_Some; congruence).
  destruct (Nat.eqb_spec q p) as [->|D].
  - injection N' as <-. now destruct U.
  - now apply T.
Qed.

Lemma tracked_step (a : Action) (c : Client) : tracked c -> tracked (step a c).
Proof.
  destruct a; cbn;
    [apply tracked_operate | apply tracked_settle | apply tracked_react].
Qed.

Lemma tracked_run (tr : list Action) : forall c, tracked c -> tracked (run tr c).
Proof.
  induction tr as [|a tr IH]; intros c T; cbn; [assumption|].
  apply IH, tracked_step, T.
Qed.

(** Joining the promise [this.operations] holds. *)
Lemma operate_joins (avail : bool) (k : string) (r : bool) (c : Client) (p : nat) :
  get k (operations c) = Some (VObject p) ->
  fst (operate avail k r c) = (if r then thenReset p c else c)
  /\ cacheValuePromise (snd (operate avail k r c)) = p.
Proof. intros G. unfold operate. rewrite G. cbn. now destruct r. Qed.

Lemma thenReset_graphql (p : nat) (c : Client) :
  graphql (thenReset p c) = graphql c /\ operations (thenReset p c) = operations c.
Proof.
  unfold thenReset. now destruct (nth_error (promises c) p).
Qed.

End Tracked.

(** X9.  In every state the client reaches from a fresh one, a promise in
    flight is the only one in flight for its cache key, and [operate] for
    that key joins it: it returns that promise, starts no fetch and emits
    nothing, and leaves cache and [operations] as they were. *)
Theorem one_fetch_per_key (tr : list Operations.Action)
  (g : GraphQLClient.GraphQL) (p : nat) (o : Operations.Operation) :
  let c := Operations.run tr (Operations.newClient g) in
  nth_error (Operations.promises c) p = Some o ->
  Operations.ofate o = Operations.InFlight ->
  (forall q o',
      nth_error (Operations.promises c) q = Some o' ->
      Operations.ofate o' = Operations.InFlight ->
      Operations.okey o' = Operations.okey o -> q = p)
  /\ (forall avail r,
        let res := Operations.operate avail (Operations.okey o) r c in
        Operations.cacheValuePromise (snd res) = p
        /\ Operations.graphql (fst res) = Operations.graphql c
        /\ Operations.operations (fst res) = Operations.operations c).
Proof.
  intros c N F.
  assert (T : tracked c) by apply tracked_run, tracked_new.
  assert (G : get (Operations.okey o) (Operations.operations c) = Some (VObject p))
    by (apply T; [assumption | congruence]).
  split.
  - intros q o' N' F' E.
    assert (G' : get (Operations.okey o') (Operations.operations c)
                 = Some (VObject q)) by (apply T; [assumption | congruence]).
    rewrite E, G in G'. congruence.
  - intros avail r res.
    destruct (operate_joins avail (Operations.okey o) r c p G) as [E1 E2].
    unfold res. rewrite E1, E2. split; [reflexivity|].
    destruct r; [apply thenReset_graphql | now split].
Qed.

Lemma one_fetch_per_key_witness :
  let res := Operations.operate true "k" true oneOperation in
  Operations.cacheValuePromise (snd res) = 0
  /\ Operations.graphql (fst res) = Operations.graphql oneOperation
  /\ Operations.operations (fst res) = Operations.operations oneOperation.
Proof.
  exact (proj2 (one_fetch_per_key [Operations.Operate true "k" false] _ 0 _
                  eq_refl eq_refl) true true).
Defined.

Section Failed.

Import Operations.

Variable k : string.
Variable p : nat.

Lemma failedFor_fetch (avail : bool) (j : string) (c : Client) :
  failedFor k p c -> failedFor k p (fst (fetch avail j c)).
Proof.
  intros (o & N & K & F). exists o. cbn. split; [|now split].
  rewrite nth_error_app1; [assumption|]. apply nth_error_Some. congruence.
Qed.

Lemma failedFor_thenReset (q : nat) (c : Client) :
  failedFor k p c -> failedFor k p (thenReset q c).
Proof.
  intros (o & N & K & F). unfold thenReset.
  destruct (nth_error (promises c) q) as [o'|] eqn:N'; [|now exists o].
  unfold failedFor. cbn.
  rewrite nth_error_setNth by (apply nth_error_Some; congruence).
  destruct (Nat.eqb_spec p q) as [->|D]; [|now exists o].
  rewrite N in N'. injection N' as <-. eexists. split; [reflexivity|]. now split.
Qed.

Lemma failedFor_operate (avail : bool) (j : string) (r : bool) (c : Client) :
  failedFor k p c -> failedFor k p (fst (operate avail j r c)).
Proof.
  intros F. unfold operate.
  assert (F1 : failedFor k p (fst (fetch avail j c))) by now apply failedFor_fetch.
  destruct (get j (operations c)) as [v|]; [destruct (truthy v)|].
  - cbn. destruct r; [now apply failedFor_thenReset | assumption].
  - destruct (fetch avail j c) as [c1 q]. cbn in *.
    destruct r; [now apply failedFor_thenReset | assumption].
  - destruct (fetch avail j c) as [c1 q]. cbn in *.
    destruct r; [now apply failedFor_thenReset | assumption].
Qed.

Lemma failedFor_settle (q : nat) (outcome : Outcome) (c : Client) :
  failedFor k p c -> failedFor k p (settle q outcome c).
Proof.
  intros (o & N & K & F). unfold settle.
  destruct (nth_error (promises c) q) as [o'|] eqn:N'; [|now exists o].
  destruct (ofate o') eqn:F'; try now exists o.
  assert (D : p <> q) by (intros ->; congruence).
  assert (L : q < List.length (promises c)) by (apply nth_error_Some; congruence).
  apply Nat.eqb_neq in D.
  destruct (fill _); unfold failedFor; cbn;
    rewrite nth_error_setNth, D by assumption; now exists o.
Qed.

Lemma failedFor_react (q : nat) (c : Client) :
  failedFor k p c -> failedFor k p (react q c).
Proof.
  intros (o & N & K & F). unfold react.
  destruct (nth_error (promises c) q) as [o'|] eqn:N'; [|now exists o].
  destruct (ofate o') eqn:F'; try now exists o.
  destruct (oresets o'); [now exists o|].
  assert (D : p <> q) by (intros ->; congruence).
  apply Nat.eqb_neq in D. unfold failedFor. cbn.
  rewrite nth_error_setNth, D by (apply nth_error_Some; congruence).
  now exists o.
Qed.

Lemma failedFor_run (tr : list Action) :
  forall c, failedFor k p c -> failedFor k p (run tr c).
Proof.
  induction tr as [|a tr IH]; intros c F; cbn; [assumption|].
  apply IH. destruct a; cbn;
    [now apply failedFor_operate | now apply failedFor_settle
     | now apply failedFor_react].
Qed.

End Failed.

(** X10.  A response whose body parses to [null] is never cached and the
    key is stuck from then on.  The settlement emits nothing and leaves
    the cache as it was; and whatever happens afterwards,
    [this.operations] keeps the failed promise for the key, so every
    [operate] for the key returns that promise and starts no fetch. *)
Theorem null_payload_sticks (tr : list Operations.Action)
  (g : GraphQLClient.GraphQL) (p : nat) (o : Operations.Operation)
  (ok : bool) (st : Z) (text : string) (later : list Operations.Action) :
  let c := Operations.run tr (Operations.newClient g) in
  let c1 := Operations.settle p
              (Operations.Responded ok st text (Operations.Parsed None)) c in
  let c2 := Operations.run later c1 in
  nth_error (Operations.promises c) p = Some o ->
  Operations.ofate o = Operations.InFlight ->
  Operations.ofetch o = true ->
  Operations.graphql c1 = Operations.graphql c
  /\ get (Operations.okey o) (Operations.operations c2) = Some (VObject p)
  /\ (forall avail r,
        let res := Operations.operate avail (Operations.okey o) r c2 in
        Operations.cacheValuePromise (snd res) = p
        /\ Operations.graphql (fst res) = Operations.graphql c2).
Proof.
  intros c c1 c2 N F A.
  assert (T : tracked c) by apply tracked_run, tracked_new.
  assert (L : p < List.length (Operations.promises c))
    by (apply nth_error_Some; congruence).
  assert (E1 : Operations.graphql c1 = Operations.graphql c
               /\ failedFor (Operations.okey o) p c1).
  { unfold c1, Operations.settle. rewrite N, F, A. cbn. split; [reflexivity|].
    unfold failedFor. cbn. rewrite nth_error_setNth, Nat.eqb_refl by assumption.
    eexists. split; [reflexivity|]. now split. }
  destruct E1 as [E1 F1]. split; [exact E1|].
  assert (T2 : tracked c2) by apply tracked_run, tracked_settle, T.
  destruct (failedFor_run (Operations.okey o) p later c1 F1) as (o2 & N2 & K2 & F2).
  assert (G : get (Operations.okey o) (Operations.operations c2)
              = Some (VObject p)).
  { rewrite <- K2. apply T2; [exact N2 | congruence]. }
  split; [exact G|]. intros avail r res.
  destruct (operate_joins avail (Operations.okey o) r c2 p G) as [R1 R2].
  unfold res. rewrite R1, R2. split; [reflexivity|].
  destruct r; [apply thenReset_graphql | reflexivity].
Qed.

Lemma null_payload_sticks_witness :
  let c1 := Operations.settle 0
              (Operations.Responded true 200 "OK" (Operations.Parsed None))
              oneOperation in
  let c2 := Operations.run [Operations.Settle 0 (Operations.Rejected "late");
                            Operations.Operate true "k" true;
                            Operations.React 0] c1 in
  Operations.graphql c1 = Operations.graphql oneOperation
  /\ get "k" (Operations.operations c2) = Some (VObject 0)
  /\ (forall avail r,
        let res := Operations.operate avail "k" r c2 in
        Operations.cacheValuePromise (snd res) = 0
        /\ Operations.graphql (fst res) = Operations.graphql c2).
Proof.
  exact (null_payload_sticks [Operations.Operate true "k" false] _ 0 _
           true 200 "OK"
           [Operations.Settle 0 (Operations.Rejected "late");
            Operations.Operate true "k" true; Operations.React 0]
           eq_refl eq_refl eq_refl).
Defined.

Section Resets.

Import Operations.

Variable k : string.
Variable p : nat.
Variable avail : bool.

Lemma emittedTypes_reset (v : Value) (g : GraphQLClient.GraphQL) :
  map GraphQLClient.etype (GraphQLClient.emitted (GraphQLClient.reset v g))
  = map GraphQLClient.etype (GraphQLClient.emitted g) ++ ["reset"].
Proof.
  unfold GraphQLClient.reset, GraphQLClient.emit. rewrite fold_deleteKey. cbn.
  now rewrite map_app.
Qed.

(** The first [operate] for a key without a promise starts the fetch. *)
Lemma operate_starts (c : Client) :
  (forall v, get k (operations c) = Some v -> truthy v = false) ->
  p = List.length (promises c) ->
  let c1 := fst (operate avail k true c) in
  promiseIs k avail 1 InFlight p c1
  /\ get k (operations c1) = Some (VObject p)
  /\ emittedTypes c1 = emittedTypes c ++ ["fetch"].
Proof.
  intros F -> c1.
  assert (E : c1 = thenReset (List.length (promises c)) (fst (fetch avail k c))).
  { unfold c1, operate. destruct (get k (operations c)) as [v|] eqn:G.
    - now rewrite (F v eq_refl).
    - reflexivity. }
  rewrite E. unfold thenReset. cbn.
  rewrite nth_error_app2, Nat.sub_diag by lia. cbn.
  split; [|split].
  - eexists. cbn. rewrite nth_error_setNth by (rewrite length_app; cbn; lia).
    now rewrite Nat.eqb_refl.
  - apply get_set_same.
  - unfold emittedTypes. cbn. now rewrite map_app.
Qed.

(** A further [operate] joins the promise and adds a reaction. *)
Lemma operate_adds (r : nat) (c : Client) :
  promiseIs k avail r InFlight p c ->
  get k (operations c) = Some (VObject p) ->
  let c1 := fst (operate avail k true c) in
  promiseIs k avail (S r) InFlight p c1
  /\ get k (operations c1) = Some (VObject p)
  /\ emittedTypes c1 = emittedTypes c.
Proof.
  intros [a N] G c1.
  destruct (operate_joins avail k true c p G) as [E _].
  unfold c1. rewrite E. unfold thenReset. rewrite N. cbn.
  split; [|now split].
  exists a. cbn. rewrite nth_error_setNth by (apply nth_error_Some; congruence).
  now rewrite Nat.eqb_refl.
Qed.

Lemma operates_add (n : nat) :
  forall r c,
    promiseIs k avail r InFlight p c ->
    get k (operations c) = Some (VObject p) ->
    let c1 := run (repeat (Operate avail k true) n) c in
    promiseIs k avail (n + r) InFlight p c1
    /\ get k (operations c1) = Some (VObject p)
    /\ emittedTypes c1 = emittedTypes c.
Proof.
  induction n as [|n IH]; intros r c P G; cbn; [now repeat split|].
  destruct (operate_adds r c P G) as (P1 & G1 & E1).
  destruct (IH (S r) _ P1 G1) as (P2 & G2 & E2).
  rewrite Nat.add_succ_r in P2. split; [exact P2|]. split; [exact G2|].
  exact (eq_trans E2 E1).
Qed.

Lemma settle_fulfils (r : nat) (outcome : Outcome) (v : CacheValue) (c : Client) :
  promiseIs k avail r InFlight p c ->
  fill (if avail then outcome
        else Rejected "Global fetch API or polyfill unavailable.") = Some v ->
  let c1 := settle p outcome c in
  promiseIs k avail r Fulfilled p c1
  /\ emittedTypes c1 = emittedTypes c ++ ["cache"].
Proof.
  intros [a N] F c1. unfold c1, settle. rewrite N. cbn. rewrite F. split.
  - exists a. cbn. rewrite nth_error_setNth by (apply nth_error_Some; congruence).
    now rewrite Nat.eqb_refl.
  - unfold emittedTypes. cbn. now rewrite map_app.
Qed.

Lemma reacts_reset (m : nat) :
  forall r c,
    promiseIs k avail r Fulfilled p c ->
    emittedTypes (run (repeat (React p) m) c)
    = emittedTypes c ++ repeat "reset" (Nat.min m r).
Proof.
  induction m as [|m IH]; intros r c [a N].
  - cbn. now rewrite app_nil_r.
  - change (run (repeat (React p) (S m)) c)
      with (run (repeat (React p) m) (react p c)).
    destruct r as [|r].
    + assert (E : react p c = c) by (unfold react; now rewrite N).
      rewrite E, (IH 0 c) by now exists a. now rewrite !Nat.min_0_r.
    + rewrite (IH r).
      * unfold react. rewrite N. unfold emittedTypes.
        cbn [graphql ofate oresets okey].
        rewrite emittedTypes_reset. now rewrite <- app_assoc.
      * exists a. unfold react. rewrite N. cbn.
        rewrite nth_error_setNth by (apply nth_error_Some; congruence).
        now rewrite Nat.eqb_refl.
Qed.

End Resets.

(** X11.  A key without a promise in [this.operations] is fetched once
    however often [operate] is called for it before the fetch settles, and
    each of those calls with [resetOnLoad] adds its own reset: after the
    settlement the events are one [fetch], one [cache] and as many
    [reset] as reactions have run, at most one for each call. *)
Theorem resets_per_operate (n m : nat) (c : Operations.Client) (k : string)
  (avail : bool) (outcome : Operations.Outcome) (v : Operations.CacheValue) :
  (forall u, get k (Operations.operations c) = Some u -> truthy u = false) ->
  Operations.fill
    (if avail then outcome
     else Operations.Rejected "Global fetch API or polyfill unavailable.")
  = Some v ->
  let p := List.length (Operations.promises c) in
  Operations.emittedTypes
    (Operations.run
       (repeat (Operations.Operate avail k true) (S n)
        ++ Operations.Settle p outcome :: repeat (Operations.React p) m) c)
  = Operations.emittedTypes c
    ++ "fetch" :: "cache" :: repeat "reset" (Nat.min m (S n)).
Proof.
  intros F V p.
  destruct (operate_starts k p avail c F eq_refl) as (P1 & G1 & E1).
  destruct (operates_add k p avail n 1 _ P1 G1) as (P2 & _ & E2).
  destruct (settle_fulfils k p avail (n + 1) outcome v _ P2 V) as (P3 & E3).
  pose proof (reacts_reset k p avail m (n + 1) _ P3) as E4.
  replace (Operations.run
             (repeat (Operations.Operate avail k true) (S n)
              ++ Operations.Settle p outcome :: repeat (Operations.React p) m) c)
    with (Operations.run (repeat (Operations.React p) m)
            (Operations.settle p outcome
               (Operations.run (repeat (Operations.Operate avail k true) n)
                  (fst (Operations.operate avail k true c))))).
  - rewrite E4, E3, E2, E1. rewrite <- !app_assoc. cbn.
    now rewrite Nat.add_1_r.
  - unfold Operations.run. rewrite fold_left_app. reflexivity.
Qed.

Lemma resets_per_operate_witness :
  Operations.emittedTypes
    (Operations.run
       [Operations.Operate true "k" true; Operations.Operate true "k" true;
        Operations.Settle 0 (Operations.Rejected "offline");
        Operations.React 0; Operations.React 0; Operations.React 0]
       (Operations.newClient
          {| GraphQLClient.cache := []; GraphQLClient.handlers := [];
             GraphQLClient.emitted := [] |}))
  = ["fetch"; "cache"; "reset"; "reset"].
Proof.
  apply (resets_per_operate 1 3
           (Operations.newClient
              {| GraphQLClient.cache := []; GraphQLClient.handlers := [];
                 GraphQLClient.emitted := [] |})
           "k" true (Operations.Rejected "offline")
           {| Operations.fetchError := Some "offline";
              Operations.httpError := None; Operations.parseError := None;
              Operations.graphQLErrors := None; Operations.data := None |}).
  - intros u H. discriminate.
  - reflexivity.
Defined.

(** * The earliest client: cache update listeners *)

Section CacheUpdateFacts.

Import CacheUpdates.

Lemma lookup_assign_same (h : string) (cs : list nat) (ls : Listeners) :
  lookup h (assign h cs ls) = Some cs.
Proof.
  induction ls as [|[j js] ls IH]; cbn.
  - now rewrite String.eqb_refl.
  - destruct (j =? h) eqn:E; cbn; now rewrite E.
Qed.

Lemma lookup_assign_other (h j : string) (cs : list nat) (ls : Listeners) :
  j <> h -> lookup j (assign h cs ls) = lookup j ls.
Proof.
  intros N. induction ls as [|[i js] ls IH]; cbn.
  - apply not_eq_sym, String.eqb_neq in N. now rewrite N.
  - destruct (i =? h) eqn:E; cbn; [|now rewrite IH].
    apply String.eqb_eq in E. subst i.
    apply not_eq_sym, String.eqb_neq in N. now rewrite N.
Qed.

Lemma lookup_remove_same (h : string) (ls : Listeners) :
  lookup h (remove h ls) = None.
Proof.
  induction ls as [|[j js] ls IH]; cbn; [reflexivity|].
  destruct (j =? h) eqn:E; cbn; [exact IH|]. now rewrite E.
Qed.

Lemma lookup_remove_other (h j : string) (ls : Listeners) :
  j <> h -> lookup j (remove h ls) = lookup j ls.
Proof.
  intros N. induction ls as [|[i js] ls IH]; cbn; [reflexivity|].
  destruct (i =? h) eqn:E; cbn.
  - apply String.eqb_eq in E. subst i.
    apply not_eq_sym, String.eqb_neq in N. now rewrite N.
  - now rewrite IH.
Qed.

(** What [onCacheUpdate] leaves for each hash. *)
Lemma lookup_on (h : string) (cb : nat) (ls : Listeners) (j : string) :
  lookup j (onCacheUpdate h cb ls)
  = if j =? h then Some (callbacksFor h ls ++ [cb]) else lookup j ls.
Proof.
  unfold onCacheUpdate, callbacksFor.
  destruct (String.eqb_spec j h) as [->|N].
  - destruct (lookup h ls) as [cs|] eqn:L.
    + rewrite L. apply lookup_assign_same.
    + rewrite lookup_assign_same. apply lookup_assign_same.
  - destruct (lookup h ls) as [cs|] eqn:L.
    + rewrite L. now apply lookup_assign_other.
    + rewrite lookup_assign_same. now rewrite !lookup_assign_other.
Qed.

(** What [offCacheUpdate] leaves for each hash. *)
Lemma lookup_off (h : string) (cb : nat) (ls : Listeners) (j : string) :
  lookup j (offCacheUpdate h cb ls)
  = if j =? h then
      match lookup h ls with
      | Some cs =>
          match filter (fun c => negb (Nat.eqb c cb)) cs with
          | [] => None
          | kept => Some kept
          end
      | None => None
      end
    else lookup j ls.
Proof.
  unfold offCacheUpdate.
  destruct (lookup h ls) as [cs|] eqn:L.
  - rewrite lookup_assign_same.
    destruct (filter (fun c => negb (Nat.eqb c cb)) cs) as [|x xs] eqn:F.
    + destruct (String.eqb_spec j h) as [->|N].
      * apply lookup_remove_same.
      * rewrite lookup_remove_other by assumption.
        now apply lookup_assign_other.
    + destruct (String.eqb_spec j h) as [->|N].
      * apply lookup_assign_same.
      * now apply lookup_assign_other.
  - destruct (String.eqb_spec j h) as [->|N]; [exact L | reflexivity].
Qed.

Lemma filter_absent (cb : nat) (cs : list nat) :
  ~ In cb cs -> filter (fun c => negb (Nat.eqb c cb)) cs = cs.
Proof.
  induction cs as [|x cs IH]; cbn; [reflexivity|]. intros N.
  destruct (Nat.eqb_spec x cb) as [->|D]; cbn.
  - destruct N. now left.
  - rewrite IH; [reflexivity|]. intros I. apply N. now right.
Qed.

Lemma noEmptyArray_call (c : Call) (ls : Listeners) :
  noEmptyArray ls -> noEmptyArray (call c ls).
Proof.
  intros E j. destruct c as [h cb|h cb]; cbn.
  - rewrite lookup_on. destruct (j =? h); [|apply E].
    intros [= H]. now destruct (callbacksFor h ls).
  - rewrite lookup_off. destruct (j =? h); [|apply E].
    destruct (lookup h ls) as [cs|]; [|discriminate].
    now destruct (filter (fun c => negb (Nat.eqb c cb)) cs).
Qed.

End CacheUpdateFacts.

(** X12.  Starting without listeners, whatever calls of [onCacheUpdate] and
    [offCacheUpdate] are made, no hash is left with an empty array of
    callbacks: a hash is a property of [this.listeners] exactly when some
    callback is registered for it. *)
Theorem listeners_never_empty (cs : list CacheUpdates.Call) (hash : string) :
  CacheUpdates.lookup hash (CacheUpdates.calls cs []) <> Some [].
Proof.
  assert (G : forall ls, noEmptyArray ls -> noEmptyArray (CacheUpdates.calls cs ls)).
  { induction cs as [|c cs IH]; intros ls E; cbn; [assumption|].
    apply IH, noEmptyArray_call, E. }
  apply G. intros j. discriminate.
Qed.

(** X13.  [offCacheUpdate] undoes [onCacheUpdate] for a callback that was
    not registered for the hash: every hash has the callbacks it had
    before, and a hash that had none is a property no more.  For a
    callback that was registered already, [offCacheUpdate] removes the
    earlier registrations with the new one. *)
Theorem off_undoes_on (ls : CacheUpdates.Listeners) (hash : string)
  (callback : nat) (j : string) :
  noEmptyArray ls ->
  (~ In callback (CacheUpdates.callbacksFor hash ls) ->
     CacheUpdates.lookup j
       (CacheUpdates.offCacheUpdate hash callback
          (CacheUpdates.onCacheUpdate hash callback ls))
     = CacheUpdates.lookup j ls)
  /\ ~ In callback
         (CacheUpdates.callbacksFor hash
            (CacheUpdates.offCacheUpdate hash callback
               (CacheUpdates.onCacheUpdate hash callback ls))).
Proof.
  intros E. split.
  - intros N. rewrite lookup_off, !lookup_on, String.eqb_refl.
    destruct (String.eqb_spec j hash) as [->|D]; [|reflexivity].
    rewrite filter_app, filter_absent by assumption. cbn.
    rewrite Nat.eqb_refl. cbn. rewrite app_nil_r.
    unfold CacheUpdates.callbacksFor in *.
    destruct (CacheUpdates.lookup hash ls) as [[|x xs]|] eqn:L;
      try reflexivity.
    now destruct (E hash).
  - unfold CacheUpdates.callbacksFor at 1.
    rewrite lookup_off, !lookup_on, String.eqb_refl.
    set (old := CacheUpdates.callbacksFor hash ls ++ [callback]).
    destruct (filter (fun c => negb (Nat.eqb c callback)) old) as [|x xs] eqn:F;
      [tauto|].
    rewrite <- F. intros I. apply filter_In in I as [_ I].
    now rewrite Nat.eqb_refl in I.
Qed.

Lemma off_undoes_on_witness :
  CacheUpdates.lookup "h"
    (CacheUpdates.offCacheUpdate "h" 2
       (CacheUpdates.onCacheUpdate "h" 2 [("h", [1])]))
  = Some [1]
  /\ CacheUpdates.lookup "g"
       (CacheUpdates.offCacheUpdate "g" 2
          (CacheUpdates.onCacheUpdate "g" 2 [("h", [1])]))
     = None.
Proof.
  assert (E : noEmptyArray [("h", [1])]).
  { intros j H. unfold CacheUpdates.lookup in H.
    destruct ("h" =? j)%string; discriminate H. }
  split.
  - apply (proj1 (off_undoes_on [("h", [1])] "h" 2 "h" E)).
    cbn. intros [H|[]]. discriminate.
  - apply (proj1 (off_undoes_on [("h", [1])] "g" 2 "g" E)).
    cbn. tauto.
Defined.

Section ResetOnLoad.

Import Operations.

Lemma reset_get (s : string) (g : GraphQLClient.GraphQL) (j : string) :
  s <> "" ->
  GraphQLClient.handlers g = [] ->
  get j (GraphQLClient.cache (GraphQLClient.reset (VString s) g))
  = if j =? s then get j (GraphQLClient.cache g) else None.
Proof.
  intros N H. unfold GraphQLClient.reset, GraphQLClient.emit.
  rewrite fold_deleteKey. cbn. rewrite H. cbn.
  apply String.eqb_neq in N. rewrite N. cbn.
  rewrite get_fold_delete. set (c := GraphQLClient.cache g).
  destruct (String.eqb_spec j s) as [->|D].
  - destruct (among s (filter (fun hash => negb (hash =? s)) (keys c))) eqn:A;
      [|reflexivity].
    apply among_In, filter_In in A. destruct A as [_ A].
    now rewrite String.eqb_refl in A.
  - destruct (among j (filter (fun hash => negb (hash =? s)) (keys c))) eqn:A;
      [reflexivity|].
    apply has_false_get. destruct (has j c) eqn:P; [|reflexivity].
    apply ownKeys_has in P.
    assert (I : In j (filter (fun hash => negb (hash =? s)) (keys c))).
    { apply filter_In. split; [exact P|]. apply String.eqb_neq in D.
      now rewrite D. }
    apply among_In in I. congruence.
Qed.

Lemma length_setNth {A : Type} (l : list A) :
  forall n x, n < List.length l -> List.length (setNth n x l) = List.length l.
Proof.
  unfold setNth. induction l as [|y l IH]; intros n x H; cbn in H; [lia|].
  destruct n as [|n]; cbn; [reflexivity|]. f_equal. apply IH. lia.
Qed.

Lemma operate_fresh (avail : bool) (k : string) (c : Client) :
  (forall u, get k (operations c) = Some u -> truthy u = false) ->
  fst (operate avail k true c)
  = thenReset (List.length (promises c)) (fst (fetch avail k c)).
Proof.
  intros F. unfold operate. destruct (get k (operations c)) as [v|] eqn:G.
  - now rewrite (F v eq_refl).
  - reflexivity.
Qed.

End ResetOnLoad.

(** X14.  An operation with [resetOnLoad], on a client without handlers and
    for a key other than the empty string: once it has settled and its
    reaction has run, the cache holds the loaded value at its key and
    nothing else, and [this.operations] has the key no more. *)
Theorem reset_on_load_keeps_loaded (c : Operations.Client) (k : string)
  (avail : bool) (outcome : Operations.Outcome) (v : Operations.CacheValue) :
  k <> "" ->
  GraphQLClient.handlers (Operations.graphql c) = [] ->
  (forall u, get k (Operations.operations c) = Some u -> truthy u = false) ->
  Operations.fill
    (if avail then outcome
     else Operations.Rejected "Global fetch API or polyfill unavailable.")
  = Some v ->
  let p := List.length (Operations.promises c) in
  let a := List.length (Operations.values c) in
  let c' := Operations.run [Operations.Operate avail k true;
                            Operations.Settle p outcome;
                            Operations.React p] c in
  (forall j,
      get j (GraphQLClient.cache (Operations.graphql c'))
      = if j =? k then Some (VObject a) else None)
  /\ nth_error (Operations.values c') a = Some v
  /\ get k (Operations.operations c') = None.
Proof.
  intros N H F V p a c'.
  assert (E : c' = Operations.react p
                     (Operations.settle p outcome
                        (Operations.thenReset p
                           (fst (Operations.fetch avail k c))))).
  { unfold c'. cbn. now rewrite operate_fresh. }
  assert (L : p < List.length (Operations.promises c ++
                [{| Operations.okey := k; Operations.ovalue := a;
                    Operations.ofetch := avail; Operations.oresets := 0;
                    Operations.ofate := Operations.InFlight |}]))
    by (rewrite length_app; cbn; lia).
  rewrite E. unfold Operations.thenReset, Operations.fetch.
  cbn -[GraphQLClient.reset Operations.setNth].
  fold p a. rewrite nth_error_app2, Nat.sub_diag by (unfold p; lia).
  cbn -[GraphQLClient.reset Operations.setNth].
  unfold Operations.settle. cbn -[GraphQLClient.reset Operations.setNth].
  rewrite nth_error_setNth, Nat.eqb_refl by exact L.
  cbn -[GraphQLClient.reset Operations.setNth]. rewrite V.
  unfold Operations.react. cbn -[GraphQLClient.reset Operations.setNth].
  rewrite nth_error_setNth, Nat.eqb_refl by now rewrite length_setNth.
  cbn -[GraphQLClient.reset Operations.setNth].
  split; [|split].
  - intros j. rewrite reset_get; [|exact N|cbn; now rewrite H].
    cbn. rewrite H. cbn.
    destruct (String.eqb_spec j k) as [->|D]; [|reflexivity].
    apply get_set_same.
  - rewrite nth_error_setNth by (rewrite length_app; cbn; unfold a; lia).
    now rewrite Nat.eqb_refl.
  - apply get_delete_same.
Qed.

Lemma reset_on_load_keeps_loaded_witness :
  let c := Operations.newClient
             {| GraphQLClient.cache := [("old", VObject 7)];
                GraphQLClient.handlers := []; GraphQLClient.emitted := [] |} in
  let c' := Operations.run
              [Operations.Operate true "k" true;
               Operations.Settle 0 (Operations.Rejected "offline");
               Operations.React 0] c in
  (forall j,
      get j (GraphQLClient.cache (Operations.graphql c'))
      = if j =? "k" then Some (VObject 0) else None)
  /\ nth_error (Operations.values c') 0
     = Some {| Operations.fetchError := Some "offline";
               Operations.httpError := None; Operations.parseError := None;
               Operations.graphQLErrors := None; Operations.data := None |}
  /\ get "k" (Operations.operations c') = None.
Proof.
  apply (reset_on_load_keeps_loaded
           (Operations.newClient
              {| GraphQLClient.cache := [("old", VObject 7)];
                 GraphQLClient.handlers := []; GraphQLClient.emitted := [] |})
           "k" true (Operations.Rejected "offline")).
  - discriminate.
  - reflexivity.
  - intros u H. discriminate.
  - reflexivity.
Defined.

Section Held.

Import Operations.

Lemma held_new (g : GraphQLClient.GraphQL) : held (newClient g).
Proof. intros k v H. discriminate. Qed.

Lemma held_fetch (avail : bool) (k : string) (c : Client) :
  held c -> held (fst (fetch avail k c)).
Proof.
  intros H j v G. cbn in *.
  destruct (String.eqb_spec j k) as [->|D].
  - rewrite get_set_same in G. injection G as <-.
    eexists. eexists. split; [reflexivity|].
    rewrite nth_error_app2, Nat.sub_diag by lia. cbn.
    split; [reflexivity|]. split; [reflexivity | discriminate].
  - rewrite get_set_other in G by assumption.
    destruct (H j v G) as (p & o & -> & N & K & F).
    exists p, o. split; [reflexivity|]. split; [|now split].
    rewrite nth_error_app1; [assumption|]. apply nth_error_Some. congruence.
Qed.

Lemma held_thenReset (q : nat) (c : Client) : held c -> held (thenReset q c).
Proof.
  intros H. unfold thenReset.
  destruct (nth_error (promises c) q) as [o'|] eqn:N'; [|exact H].
  intros j v G. cbn in *. destruct (H j v G) as (p & o & -> & N & K & F).
  exists p. rewrite nth_error_setNth by (apply nth_error_Some; congruence).
  destruct (Nat.eqb_spec p q) as [->|D].
  - rewrite N in N'. injection N' as <-.
    eexists. split; [reflexivity|]. split; [reflexivity|]. now split.
  - exists o. now repeat split.
Qed.

Lemma held_operate (avail : bool) (k : string) (r : bool) (c : Client) :
  held c -> held (fst (operate avail k r c)).
Proof.
  intros H. unfold operate.
  assert (F1 : held (fst (fetch avail k c))) by now apply held_fetch.
  destruct (get k (operations c)) as [v|]; [destruct (truthy v)|].
  - cbn. destruct r; [now apply held_thenReset | assumption].
  - destruct (fetch avail k c) as [c1 q]. cbn in *.
    destruct r; [now apply held_thenReset | assumption].
  - destruct (fetch avail k c) as [c1 q]. cbn in *.
    destruct r; [now apply held_thenReset | assumption].
Qed.

Lemma held_settle (q : nat) (outcome : Outcome) (c : Client) :
  held c -> held (settle q outcome c).
Proof.
  intros H. unfold settle.
  destruct (nth_error (promises c) q) as [o'|] eqn:N'; [|exact H].
  destruct (ofate o') eqn:F'; try exact H.
  assert (L : q < List.length (promises c)) by (apply nth_error_Some; congruence).
  destruct (fill _).
  - intros j v G. cbn in *.
    destruct (String.eqb_spec j (okey o')) as [->|D].
    + now rewrite get_delete_same in G.
    + rewrite get_delete_other in G by assumption.
      destruct (H j v G) as (p & o & -> & N & K & F).
      exists p. rewrite nth_error_setNth by assumption.
      destruct (Nat.eqb_spec p q) as [->|Dp].
      * rewrite N in N'. injection N' as <-. now destruct D.
      * exists o. now repeat split.
  - intros j v G. cbn in *. destruct (H j v G) as (p & o & -> & N & K & F).
    exists p. rewrite nth_error_setNth by assumption.
    destruct (Nat.eqb_spec p q) as [->|Dp].
    + rewrite N in N'. injection N' as <-.
      eexists. split; [reflexivity|]. split; [reflexivity|].
      split; [exact K | discriminate].
    + exists o. now repeat split.
Qed.

Lemma held_react (q : nat) (c : Client) : held c -> held (react q c).
Proof.
  intros H. unfold react.
  destruct (nth_error (promises c) q) as [o'|] eqn:N'; [|exact H].
  destruct (ofate o') eqn:F'; try exact H.
  destruct (oresets o'); [exact H|].
  intros j v G. cbn in *. destruct (H j v G) as (p & o & -> & N & K & F).
  exists p. rewrite nth_error_setNth by (apply nth_error_Some; congruence).
  destruct (Nat.eqb_spec p q) as [->|D].
  - rewrite N in N'. injection N' as <-. now destruct F.
  - exists o. now repeat split.
Qed.

Lemma held_run (tr : list Action) : forall c, held c -> held (run tr c).
Proof.
  induction tr as [|a tr IH]; intros c H; cbn; [assumption|].
  apply IH. destruct a; cbn;
    [now apply held_operate | now apply held_settle | now apply held_react].
Qed.

End Held.

(** X15.  In every state the client reaches from a fresh one, a cache key
    is in [this.operations] exactly when a promise made for it is not
    fulfilled: the key enters with the fetch and leaves with the
    settlement that writes the cache. *)
Theorem in_operations_while_unfulfilled (tr : list Operations.Action)
  (g : GraphQLClient.GraphQL) (k : string) :
  let c := Operations.run tr (Operations.newClient g) in
  has k (Operations.operations c) = true
  <-> exists p o,
        nth_error (Operations.promises c) p = Some o
        /\ Operations.okey o = k
        /\ Operations.ofate o <> Operations.Fulfilled.
Proof.
  intros c. split.
  - intros P. apply has_get in P as [v G].
    destruct (held_run tr _ (held_new g) k v G) as (p & o & _ & N & K & F).
    now exists p, o.
  - intros (p & o & N & <- & F). apply has_get. exists (VObject p).
    now apply (tracked_run tr _ (tracked_new g)).
Qed.
